(** * TypoGard-Crates: the typosquatting detection engine

    A shallow embedding of [typogard_crates.py]: the seven name mutators, the
    bitflip index, the description-similarity filter and the detector driver,
    followed by the properties the specification states about them.

    Conventions of the embedding.
    - A Python [str] is a [string]: a sequence of characters with code points
      below 256.  Crate names only use ASCII.
    - A value that may be [None] is an [option].
    - A [dict] is a [gmap], a [set] is a [gset]; iterating a set visits
      [elements] of it.
    - A function that can raise returns a [result]; exceptions propagate
      through the bind of the monad.
    - The module-level globals ([crates], [popular_package_set], ...) are the
      fields of one record [Globals] that every function receives.
    - The spaCy model, rapidfuzz and the crate downloader are external
      services; they are the fields of the class [External]. *)

From Stdlib Require Import Ascii PrimFloat.
From Stdlib Require OrderedTypeEx.
From stdpp Require Import gmap strings list sorting.

Local Open Scope Z_scope.

(** ** Exceptions *)

Inductive exn : Type :=
| KeyError (key : string)
| IndexError
| TypeError
| ValueError (target : string) (descr : string)
| RuntimeError.

Inductive result (A : Type) : Type :=
| Ok (a : A)
| Raise (e : exn).
Arguments Ok {A} a.
Arguments Raise {A} e.

#[global] Instance result_ret : MRet result := λ A a, Ok a.
#[global] Instance result_bind : MBind result := λ A B f m,
  match m with
  | Ok a => f a
  | Raise e => Raise e
  end.

(** ** Python string primitives *)

(** [s[:i]] for [0 <= i] *)
Fixpoint slice_to (i : nat) (s : string) : string :=
  match i, s with
  | S i', String c s' => String c (slice_to i' s')
  | _, _ => EmptyString
  end.

(** [s[i:]] for [0 <= i] *)
Fixpoint slice_from (i : nat) (s : string) : string :=
  match i, s with
  | S i', String c s' => slice_from i' s'
  | _, _ => s
  end.

Definition char_str (c : ascii) : string := String c EmptyString.

Definition list_inb (c : ascii) (l : list ascii) : bool :=
  existsb (Ascii.eqb c) l.

(** [str.isspace] on one character: the code points below 256 that Python
    treats as whitespace. *)
Definition py_isspace (c : ascii) : bool :=
  let n := nat_of_ascii c in
  ((9 <=? n) && (n <=? 13) || (28 <=? n) && (n <=? 32)
   || (n =? 133) || (n =? 160))%nat.

Fixpoint lstrip (s : string) : string :=
  match s with
  | EmptyString => EmptyString
  | String c s' => if py_isspace c then lstrip s' else s
  end.

Fixpoint rstrip (s : string) : string :=
  match s with
  | EmptyString => EmptyString
  | String c s' =>
      match rstrip s' with
      | EmptyString => if py_isspace c then EmptyString else char_str c
      | r => String c r
      end
  end.

(** [s.strip()] *)
Definition strip (s : string) : string := rstrip (lstrip s).

(** [s.split()]: the maximal runs of non-whitespace characters. *)
Fixpoint split_ws_aux (cur : string) (s : string) : list string :=
  match s with
  | EmptyString => if String.eqb cur "" then [] else [cur]
  | String c s' =>
      if py_isspace c
      then (if String.eqb cur "" then [] else [cur]) ++ split_ws_aux "" s'
      else split_ws_aux (cur +:+ char_str c) s'
  end.
Definition split_ws (s : string) : list string := split_ws_aux "" s.

Fixpoint string_map (f : ascii → ascii) (s : string) : string :=
  match s with
  | EmptyString => EmptyString
  | String c s' => String (f c) (string_map f s')
  end.

Fixpoint string_forallb (f : ascii → bool) (s : string) : bool :=
  match s with
  | EmptyString => true
  | String c s' => f c && string_forallb f s'
  end.

Fixpoint string_existsb (f : ascii → bool) (s : string) : bool :=
  match s with
  | EmptyString => false
  | String c s' => f c || string_existsb f s'
  end.

(** ** Constants *)

Definition DELIMITERS : list string := [""; "-"; "_"].

(** The class [[_-]] of [DELIMITER_REGEX]. *)
Definition is_delimiter (c : ascii) : bool :=
  Ascii.eqb c "-"%char || Ascii.eqb c "_"%char.

(** [\d] on code points below 256. *)
Definition is_digit (c : ascii) : bool :=
  let n := nat_of_ascii c in ((48 <=? n) && (n <=? 57))%nat.

Definition newline : ascii := ascii_of_nat 10.

Definition ALLOWED_CHARACTERS : string :=
  "ABCDEFGHIJKLMNOPQRSTUVWXYZabcdefghijklmnopqrstuvwxyz1234567890-_".

(** The class [[A-Za-z0-9_-]] of [CRATE_NAME_REGEX] and [CRATE_FILE_REGEX]. *)
Definition is_name_char (c : ascii) : bool :=
  let n := nat_of_ascii c in
  ((65 <=? n) && (n <=? 90) || (97 <=? n) && (n <=? 122)
   || (48 <=? n) && (n <=? 57) || (n =? 95) || (n =? 45))%nat.

Definition TYPOS : list (ascii * list string) :=
  [ ("1"%char, ["2"; "q"; "i"; "l"]);
    ("2"%char, ["1"; "q"; "w"; "3"]);
    ("3"%char, ["2"; "w"; "e"; "4"]);
    ("4"%char, ["3"; "e"; "r"; "5"]);
    ("5"%char, ["4"; "r"; "t"; "6"; "s"]);
    ("6"%char, ["5"; "t"; "y"; "7"]);
    ("7"%char, ["6"; "y"; "u"; "8"]);
    ("8"%char, ["7"; "u"; "i"; "9"]);
    ("9"%char, ["8"; "i"; "o"; "0"]);
    ("0"%char, ["9"; "o"; "p"; "-"]);
    ("-"%char, ["_"; "0"; "p"; "."; ""]);
    ("_"%char, ["-"; "0"; "p"; "."; ""]);
    ("q"%char, ["1"; "2"; "w"; "a"]);
    ("w"%char, ["2"; "3"; "e"; "s"; "a"; "q"; "vv"]);
    ("e"%char, ["3"; "4"; "r"; "d"; "s"; "w"]);
    ("r"%char, ["4"; "5"; "t"; "f"; "d"; "e"]);
    ("t"%char, ["5"; "6"; "y"; "g"; "f"; "r"]);
    ("y"%char, ["6"; "7"; "u"; "h"; "t"; "i"]);
    ("u"%char, ["7"; "8"; "i"; "j"; "y"; "v"]);
    ("i"%char, ["1"; "8"; "9"; "o"; "l"; "k"; "j"; "u"; "y"]);
    ("o"%char, ["9"; "0"; "p"; "l"; "i"]);
    ("p"%char, ["0"; "-"; "o"]);
    ("a"%char, ["q"; "w"; "s"; "z"]);
    ("s"%char, ["w"; "d"; "x"; "z"; "a"; "5"]);
    ("d"%char, ["e"; "r"; "f"; "c"; "x"; "s"]);
    ("f"%char, ["r"; "g"; "v"; "c"; "d"]);
    ("g"%char, ["t"; "h"; "b"; "v"; "f"]);
    ("h"%char, ["y"; "j"; "n"; "b"; "g"]);
    ("j"%char, ["u"; "i"; "k"; "m"; "n"; "h"]);
    ("k"%char, ["i"; "o"; "l"; "m"; "j"]);
    ("l"%char, ["i"; "o"; "p"; "k"; "1"]);
    ("z"%char, ["a"; "s"; "x"]);
    ("x"%char, ["z"; "s"; "d"; "c"]);
    ("c"%char, ["x"; "d"; "f"; "v"]);
    ("v"%char, ["c"; "f"; "g"; "b"; "u"]);
    ("b"%char, ["v"; "g"; "h"; "n"]);
    ("n"%char, ["b"; "h"; "j"; "m"]);
    ("m"%char, ["n"; "j"; "k"; "rn"]);
    ("."%char, ["-"; "_"; ""]) ].

(** [TYPOS[c]] guarded by [c in TYPOS]. *)
Fixpoint typos_lookup (tbl : list (ascii * list string)) (c : ascii)
  : option (list string) :=
  match tbl with
  | [] => None
  | (k, v) :: tbl' => if Ascii.eqb k c then Some v else typos_lookup tbl' c
  end.

(** ** Data model and globals *)

(** One value of the dict [crates]: the columns of a database row without
    [login], plus the list [authors].  A [login] is [None] when the crate has
    no matching owner row. *)
Record Package : Type := {
  name : string;
  homepage : option string;
  repository : option string;
  documentation : option string;
  description : option string;
  downloads : Z;
  authors : list (option string);
}.

Record Args : Type := {
  check_days : Z;
  most_popular : Z;
  similarity_threshold : float;
  levenshtein_threshold : Z;
}.

Definition DEFAULT_CHECK_DAYS : Z := 3.
Definition DEFAULT_MOST_POPULAR : Z := 3000.
(** The binary64 value that Python reads [0.97] as. *)
Definition DEFAULT_SIMILARITY_THRESHOLD : float := 0x1.f0a3d70a3d70ap-1%float.
Definition DEFAULT_LEVENSHTEIN_THRESHOLD : Z := 10.

Definition default_args : Args := {|
  check_days := DEFAULT_CHECK_DAYS;
  most_popular := DEFAULT_MOST_POPULAR;
  similarity_threshold := DEFAULT_SIMILARITY_THRESHOLD;
  levenshtein_threshold := DEFAULT_LEVENSHTEIN_THRESHOLD;
|}.

Record Globals : Type := {
  popular_package_list : list string;
  popular_package_set : gset string;
  popular_bitflips : gmap string (list string);
  crates : gmap string Package;
  args : Args;
}.

(** [crates[p]] *)
Definition crates_get (G : Globals) (p : string) : result Package :=
  match crates G !! p with
  | Some c => Ok c
  | None => Raise (KeyError p)
  end.

(** ** Popularity and authorship *)

(** [packages[0]] *)
Definition list_first (packages : list string) : result string :=
  match packages with
  | p :: _ => Ok p
  | [] => Raise IndexError
  end.

Definition get_most_popular_package (G : Globals) (packages : list string)
  : result string :=
  let packages_set : gset string := list_to_set packages in
  match List.find (λ popular_package, bool_decide (popular_package ∈ packages_set))
          (popular_package_list G) with
  | Some popular_package => Ok popular_package
  | None => list_first packages
  end.

(** The loop of [same_author] over the authors of [p1]; [crates[p2]] is
    evaluated once per iteration, as in the source. *)
Fixpoint same_author_loop (G : Globals) (authors1 : list (option string))
    (p2 : string) : result bool :=
  match authors1 with
  | [] => Ok false
  | author :: rest =>
      c2 ← crates_get G p2;
      if bool_decide (author ∈ authors c2) then Ok true
      else same_author_loop G rest p2
  end.

Definition same_author (G : Globals) (p1 p2 : string) : result bool :=
  c1 ← crates_get G p1;
  same_author_loop G (authors c1) p2.

(** The test every mutator applies to a generated name [s]:
    [s in popular_package_set and not same_author(package_name, s)
     and s != package_name], with the short-circuit evaluation of [and]. *)
Definition is_target (G : Globals) (package_name s : string) : result bool :=
  if bool_decide (s ∈ popular_package_set G) then
    sa ← same_author G package_name s;
    Ok (negb sa && negb (String.eqb s package_name))
  else Ok false.

(** A mutator's loop: the generated names are tested in generation order and
    the ones that pass are appended to [potential_typosquatting_targets]. *)
Fixpoint record_targets (G : Globals) (package_name : string)
    (generated : list string) : result (list string) :=
  match generated with
  | [] => Ok []
  | s :: rest =>
      b ← is_target G package_name s;
      targets ← record_targets G package_name rest;
      Ok (if b : bool then s :: targets else targets)
  end.

(** The common tail of the mutators with a [return_all] flag. *)
Definition return_targets (G : Globals) (return_all : bool)
    (potential_typosquatting_targets : list string) : result (list string) :=
  if return_all || (length potential_typosquatting_targets =? 0)%nat
  then Ok potential_typosquatting_targets
  else p ← get_most_popular_package G potential_typosquatting_targets; Ok [p].

(** ** The name mutators *)

Definition indices (n : nat) : list nat := seq 0 n.

Definition repeated_characters_names (package_name : string) : list string :=
  flat_map (λ i,
    match String.get i package_name, String.get (i + 1) package_name with
    | Some c, Some c' =>
        if Ascii.eqb c' c
        then [slice_to i package_name +:+ slice_from (i + 1) package_name]
        else []
    | _, _ => []
    end) (indices (String.length package_name)).

Definition repeated_characters (G : Globals) (package_name : string)
    (return_all : bool) : result (list string) :=
  targets ← record_targets G package_name (repeated_characters_names package_name);
  return_targets G return_all targets.

Definition omitted_chars_names (package_name : string) : list string :=
  flat_map (λ i,
    map (λ c, slice_to i package_name +:+ char_str c +:+ slice_from i package_name)
        (String.list_ascii_of_string ALLOWED_CHARACTERS))
    (indices (String.length package_name + 1)).

Definition omitted_chars (G : Globals) (package_name : string)
    (return_all : bool) : result (list string) :=
  if (String.length package_name <? 4)%nat then Ok []
  else
    targets ← record_targets G package_name (omitted_chars_names package_name);
    return_targets G return_all targets.

Definition swapped_characters_names (package_name : string) : list string :=
  flat_map (λ i,
    match String.get i package_name, String.get (i + 1) package_name with
    | Some t, Some u =>
        [slice_to i package_name +:+ char_str u +:+ char_str t
           +:+ slice_from (i + 2) package_name]
    | _, _ => []
    end) (indices (String.length package_name - 1)).

Definition swapped_characters (G : Globals) (package_name : string)
    (return_all : bool) : result (list string) :=
  targets ← record_targets G package_name (swapped_characters_names package_name);
  return_targets G return_all targets.

(** [itertools.permutations]: by position, in lexicographic order of the
    positions. *)
Fixpoint selections {A} (l : list A) : list (A * list A) :=
  match l with
  | [] => []
  | x :: xs => (x, xs) :: map (λ yys, (yys.1, x :: yys.2)) (selections xs)
  end.

Fixpoint permutations_aux {A} (n : nat) (l : list A) : list (list A) :=
  match n with
  | O => [[]]
  | S n' =>
      flat_map (λ xrest, map (cons xrest.1) (permutations_aux n' xrest.2))
               (selections l)
  end.

Definition permutations {A} (l : list A) : list (list A) :=
  permutations_aux (length l) l.

(** [DELIMITER_REGEX.sub(' ', package_name).split()] *)
Definition tokens_of (package_name : string) : list string :=
  split_ws (string_map (λ c, if is_delimiter c then " "%char else c) package_name).

Definition swapped_words_names (package_name : string) : list string :=
  flat_map (λ p, map (λ d, String.concat d p) DELIMITERS)
           (permutations (tokens_of package_name)).

Definition swapped_words (G : Globals) (package_name : string)
    (return_all : bool) : result (list string) :=
  if negb (string_existsb is_delimiter package_name) then Ok []
  else if (8 <? length (tokens_of package_name))%nat then Ok []
  else
    targets ← record_targets G package_name (swapped_words_names package_name);
    return_targets G return_all targets.

Definition common_typos_names (package_name : string) : list string :=
  flat_map (λ i,
    match String.get i package_name with
    | Some c =>
        match typos_lookup TYPOS c with
        | Some ts =>
            map (λ t, slice_to i package_name +:+ t
                        +:+ slice_from (i + 1) package_name) ts
        | None => []
        end
    | None => []
    end) (indices (String.length package_name)).

Definition common_typos (G : Globals) (package_name : string)
    (return_all : bool) : result (list string) :=
  targets ← record_targets G package_name (common_typos_names package_name);
  return_targets G return_all targets.

(** *** Version numbers

    [VERSION_NUMBER_REGEX = '^(.*?)[_-]?\d+$'], matched with [re.match].  The
    functions below follow the backtracking order of the regular expression:
    [$] holds at the end of the string and just before a final newline,
    [\d+] and [[_-]?] are greedy, [.*?] is lazy and does not cross a
    newline. *)

(** [$] *)
Definition at_end (s : string) : bool :=
  match s with
  | EmptyString => true
  | String c EmptyString => Ascii.eqb c newline
  | _ => false
  end.

(** [\d*$], once one digit has been read *)
Fixpoint more_digits_end (s : string) : bool :=
  match s with
  | EmptyString => at_end s
  | String c s' => (is_digit c && more_digits_end s') || at_end s
  end.

(** [\d+$] *)
Definition digits_end (s : string) : bool :=
  match s with
  | EmptyString => false
  | String c s' => is_digit c && more_digits_end s'
  end.

(** [[_-]?\d+$] *)
Definition version_suffix (s : string) : bool :=
  match s with
  | EmptyString => false
  | String c s' => (is_delimiter c && digits_end s') || digits_end s
  end.

(** [(.*?)[_-]?\d+$] after [group] has been read into group 1. *)
Fixpoint version_number_search (group : string) (s : string) : option string :=
  if version_suffix s then Some group
  else match s with
       | EmptyString => None
       | String c s' =>
           if Ascii.eqb c newline then None
           else version_number_search (group +:+ char_str c) s'
       end.

(** [VERSION_NUMBER_REGEX.match(package_name)], giving [m.group(1)]. *)
Definition VERSION_NUMBER_REGEX_match (package_name : string) : option string :=
  version_number_search "" package_name.

Definition version_numbers (G : Globals) (package_name : string)
  : result (list string) :=
  match VERSION_NUMBER_REGEX_match package_name with
  | Some s =>
      b ← is_target G package_name s;
      if b : bool then Ok [s] else Ok []
  | None => Ok []
  end.

Definition bitflips (G : Globals) (package_name : string) : result (list string) :=
  match popular_bitflips G !! package_name with
  | Some targets => Ok targets
  | None => Ok []
  end.

(** ** The allowlist *)

Definition opt_is (o : option string) (s : string) : bool :=
  match o with
  | Some x => String.eqb x s
  | None => false
  end.

Definition allowlisted (G : Globals) (package_name : string) : result bool :=
  c ← crates_get G package_name;
  let author_set : gset (option string) := list_to_set (authors c) in
  if bool_decide (author_set = {[ Some "blallo" ]})
     && opt_is (homepage c) "https://xkcd.com/386"
     && opt_is (documentation c) "https://crates.io/policies"
     && opt_is (repository c) "https://github.com/blallo/xkcd-386"
  then Ok true
  else if bool_decide (author_set = {[ Some "skerkour" ]})
          && opt_is (repository c) "https://github.com/skerkour/black-hat-rust"
  then Ok true
  else Ok false.

(** ** The bitflip index *)

(** Modelled from the spec: the [blip] library is an external package; the
    specification describes it as producing all single-bit-flip variants of
    its input.  [get_blips] flips each of the eight bits of each byte of the
    name; [get_string_blips] keeps the byte strings that decode as text.  On
    an ASCII name the byte strings that do not decode are the ones that hold
    a byte above 127. *)
Definition flip_bit (k : nat) (c : ascii) : ascii :=
  ascii_of_N (N.lxor (N_of_ascii c) (2 ^ N.of_nat k)).

Fixpoint get_blips (s : string) : list string :=
  match s with
  | EmptyString => []
  | String c s' =>
      map (λ k, String (flip_bit k c) s') (seq 0 8)
      ++ map (String c) (get_blips s')
  end.

Definition is_ascii (c : ascii) : bool := (nat_of_ascii c <? 128)%nat.

Definition get_string_blips (binary_blips : list string) : list string :=
  List.filter (string_forallb is_ascii) binary_blips.

(** [[A-Za-z0-9_-]*$], once one character of the class has been read *)
Fixpoint more_name_chars_end (s : string) : bool :=
  match s with
  | EmptyString => at_end s
  | String c s' => (is_name_char c && more_name_chars_end s') || at_end s
  end.

(** [CRATE_NAME_REGEX.search(s) is not None] for
    [CRATE_NAME_REGEX = '^[A-Za-z0-9_-]+$']: without [re.MULTILINE] the
    anchor [^] only holds at position 0. *)
Definition CRATE_NAME_REGEX_search (s : string) : bool :=
  match s with
  | EmptyString => false
  | String c s' => is_name_char c && more_name_chars_end s'
  end.

Definition blips (package_name : string) : list string :=
  let binary_blips := get_blips package_name in
  let string_blips := get_string_blips binary_blips in
  List.filter CRATE_NAME_REGEX_search string_blips.

(** [d.setdefault(bf, []).append(crate_name)] *)
Definition setdefault_append (d : gmap string (list string))
    (bf crate_name : string) : gmap string (list string) :=
  <[ bf := default [] (d !! bf) ++ [crate_name] ]> d.

Definition generate_bitflips (popular : gset string) : gmap string (list string) :=
  foldl (λ d crate_name,
           foldl (λ d bf, setdefault_append d bf crate_name) d (blips crate_name))
        ∅ (elements popular).

(** ** External services *)

Class External : Type := {
  (** a spaCy [Doc] *)
  Doc : Type;
  nlp : string → Doc;
  vector_norm : Doc → float;
  similarity : Doc → Doc → float;
  (** [rapidfuzz.distance.Levenshtein.distance] *)
  Levenshtein_distance : string → option string → result Z;
  (** [download_latest(cur, package_name)] *)
  download_latest : string → result (option string);
}.

(** [not x] for a float [x] *)
Definition float_is_zero (x : float) : bool := PrimFloat.eqb x 0%float.

(** ** The similarity filter *)

Inductive score : Type :=
| IntScore (n : Z)
| FloatScore (x : float).

(** [d is None or d.strip() == ''] *)
Definition blank (d : option string) : bool :=
  match d with
  | None => true
  | Some s => String.eqb (strip s) ""
  end.

Section Filter.
Context `{External}.
Variable G : Globals.

(** [{ t:100 for t in potential_targets if ... }] *)
Fixpoint blank_targets (targets : gmap string score)
    (potential_targets : list string) : result (gmap string score) :=
  match potential_targets with
  | [] => Ok targets
  | t :: rest =>
      ct ← crates_get G t;
      if blank (description ct)
      then blank_targets (<[ t := IntScore 100 ]> targets) rest
      else blank_targets targets rest
  end.

Fixpoint levenshtein_targets (descr : string) (targets : gmap string score)
    (potential_targets : list string) : result (gmap string score) :=
  match potential_targets with
  | [] => Ok targets
  | t :: rest =>
      ct ← crates_get G t;
      dist ← Levenshtein_distance descr (description ct);
      if dist <? levenshtein_threshold (args G)
      then levenshtein_targets descr (<[ t := IntScore dist ]> targets) rest
      else levenshtein_targets descr targets rest
  end.

Fixpoint semantic_targets (refdoc : Doc) (targets : gmap string score)
    (potential_targets : list string) : result (gmap string score) :=
  match potential_targets with
  | [] => Ok targets
  | t :: rest =>
      ct ← crates_get G t;
      match description ct with
      | Some d =>
          if negb (String.eqb (strip d) "") then
            let thisdoc := nlp d in
            if float_is_zero (vector_norm thisdoc) then Raise (ValueError t d)
            else
              let sim := similarity refdoc thisdoc in
              if PrimFloat.ltb (similarity_threshold (args G)) sim
              then semantic_targets refdoc (<[ t := FloatScore sim ]> targets) rest
              else semantic_targets refdoc targets rest
          else semantic_targets refdoc targets rest
      | None => semantic_targets refdoc targets rest
      end
  end.

Definition filter_targets (package : string) (potential_targets : list string)
  : result (gmap string score) :=
  cp ← crates_get G package;
  match description cp with
  | None => blank_targets ∅ potential_targets
  | Some descr =>
      if String.eqb (strip descr) "" then blank_targets ∅ potential_targets
      else
        let refdoc := nlp descr in
        if float_is_zero (vector_norm refdoc)
        then levenshtein_targets descr ∅ potential_targets
        else semantic_targets refdoc ∅ potential_targets
  end.

(** ** The detector *)

(** What [get_typosquatting_targets] returns: the empty list on the two
    early exits, the dict of [filter_targets] otherwise. *)
Inductive Targets : Type :=
| TargetList (l : list string)
| TargetDict (d : gmap string score).

(** [len(targets)] *)
Definition targets_len (targets : Targets) : nat :=
  match targets with
  | TargetList l => length l
  | TargetDict d => size d
  end.

(** The names an alert lists as targets. *)
Definition target_names (targets : Targets) : gset string :=
  match targets with
  | TargetList l => list_to_set l
  | TargetDict d => dom d
  end.

(** [list(set(l))] *)
Definition list_set (l : list string) : list string :=
  elements (list_to_set l : gset string).

Definition raw_targets (package_name : string) : result (list string) :=
  t1 ← repeated_characters G package_name true;
  t2 ← omitted_chars G package_name true;
  t3 ← swapped_characters G package_name true;
  t4 ← swapped_words G package_name true;
  t5 ← common_typos G package_name true;
  t6 ← version_numbers G package_name;
  t7 ← bitflips G package_name;
  Ok (t1 ++ t2 ++ t3 ++ t4 ++ t5 ++ t6 ++ t7).

Definition get_typosquatting_targets (package_name : string) : result Targets :=
  if bool_decide (package_name ∈ popular_package_set G) then Ok (TargetList [])
  else
    a ← allowlisted G package_name;
    if a : bool then Ok (TargetList [])
    else
      potential_typosquatting_targets ← raw_targets package_name;
      let potential_typosquatting_targets :=
        list_set potential_typosquatting_targets in
      d ← filter_targets package_name potential_typosquatting_targets;
      Ok (TargetDict d).

(** ** The driver *)

(** One [WARNING] line of the output. *)
Record Alert : Type := {
  alert_crate : string;
  alert_file : string;
  alert_downloads : Z;
  alert_targets : Targets;
}.

Definition str_le (a b : string) : Prop := String.leb a b = true.
#[local] Instance str_le_dec a b : Decision (str_le a b).
Proof. unfold str_le. apply _. Defined.

(** [sorted(crates)]: the keys of the dict in ascending order. *)
Definition sorted_crates : list string :=
  merge_sort str_le (map_to_list (crates G)).*1.

(** The loop of [main].  The first component is what has been printed so
    far; an exception ends the run with the lines already printed. *)
Fixpoint main_loop (names : list string) (printed : list Alert)
    (potential_typosquatting_found : Z) : list Alert * result Z :=
  match names with
  | [] => (printed, Ok potential_typosquatting_found)
  | crate_name :: rest =>
      match get_typosquatting_targets crate_name with
      | Raise e => (printed, Raise e)
      | Ok targets =>
          if (targets_len targets =? 0)%nat
          then main_loop rest printed potential_typosquatting_found
          else
            match download_latest crate_name with
            | Raise e => (printed, Raise e)
            | Ok localfile =>
                let localfile := default "no versions available" localfile in
                match crates_get G crate_name with
                | Raise e => (printed, Raise e)
                | Ok c =>
                    main_loop rest
                      (printed ++ [ {| alert_crate := crate_name;
                                       alert_file := localfile;
                                       alert_downloads := downloads c;
                                       alert_targets := targets |} ])
                      (potential_typosquatting_found + 1)
                end
            end
      end
  end.

(** [main] after the crate lists have been populated: the alerts printed and
    the exit status (or the exception that ended the run). *)
Definition main : list Alert * result Z :=
  let '(printed, r) := main_loop sorted_crates [] 0 in
  (printed, found ← r; Ok (if 0 <? found then 42 else 0)).

End Filter.

(** ** Loading the corpus *)

(** One row of [get_top_crates] or [get_crates_to_check]: a crate and one of
    its owners, [None] when the joins find no owner. *)
Record Row : Type := {
  row_name : string;
  row_login : option string;
  row_homepage : option string;
  row_repository : option string;
  row_documentation : option string;
  row_description : option string;
  row_downloads : Z;
}.

(** The dict [crates] with the order of its keys: a dict keeps the order of
    insertion, and [popular_package_list] is the view [crates.keys()]. *)
Record CrateDict : Type := {
  dict_keys : list string;
  dict_items : gmap string Package;
}.

(** [c = crates.setdefault(r['name'], {...}); c['authors'].append(r['login'])] *)
Definition add_row (d : CrateDict) (r : Row) : CrateDict :=
  match dict_items d !! row_name r with
  | Some c =>
      {| dict_keys := dict_keys d;
         dict_items :=
           <[ row_name r :=
                {| name := name c; homepage := homepage c;
                   repository := repository c;
                   documentation := documentation c;
                   description := description c; downloads := downloads c;
                   authors := authors c ++ [row_login r] |} ]>
             (dict_items d) |}
  | None =>
      {| dict_keys := dict_keys d ++ [row_name r];
         dict_items :=
           <[ row_name r :=
                {| name := row_name r; homepage := row_homepage r;
                   repository := row_repository r;
                   documentation := row_documentation r;
                   description := row_description r;
                   downloads := row_downloads r;
                   authors := [row_login r] |} ]>
             (dict_items d) |}
  end.

(** [populate_crate_lists] either leaves the globals set or ends the
    process with [sys.exit(1)]. *)
Inductive populated : Type :=
| Populated (G : Globals)
| SystemExit (status : Z).

(** The rows of the two queries are the arguments; [a] is [args]. *)
Definition populate_crate_lists (a : Args)
    (top_crates_with_authors other_crates_with_authors : list Row)
  : populated :=
  let crates1 :=
    foldl add_row {| dict_keys := []; dict_items := ∅ |}
      top_crates_with_authors in
  let popular_package_set : gset string := list_to_set (dict_keys crates1) in
  if negb (Z.of_nat (size popular_package_set) =? most_popular a)
  then SystemExit 1
  else
    let crates2 := foldl add_row crates1 other_crates_with_authors in
    Populated
      {| popular_package_list := dict_keys crates2;
         popular_package_set := popular_package_set;
         popular_bitflips := generate_bitflips popular_package_set;
         crates := dict_items crates2;
         args := a |}.

(** * Vocabulary of the properties *)

(** ** Names with a version suffix *)

Definition is_newline (c : ascii) : bool := Ascii.eqb c newline.

Definition not_newline (c : ascii) : bool := negb (Ascii.eqb c newline).

(** The last character of a string. *)
Fixpoint string_last (s : string) : option ascii :=
  match s with
  | EmptyString => None
  | String c EmptyString => Some c
  | String _ s' => string_last s'
  end.

(** [ds] is a non-empty run of digits. *)
Definition digit_run (ds : string) : bool :=
  negb (String.eqb ds "") && string_forallb is_digit ds.

(** [d] is the optional delimiter: empty, or one of [-] and [_]. *)
Definition opt_delimiter (d : string) : bool :=
  match d with
  | EmptyString => true
  | String c EmptyString => is_delimiter c
  | _ => false
  end.

(** [p] is what precedes the whole suffix: when no delimiter separates it from
    the digits it ends neither in a digit (the digit run is maximal) nor in a
    delimiter (there is none). *)
Definition prefix_of_suffix (p d : string) : bool :=
  match d, string_last p with
  | EmptyString, Some z => negb (is_digit z) && negb (is_delimiter z)
  | _, _ => true
  end.

(** The last character of [s] satisfies [f]. *)
Definition ends_in (f : ascii → bool) (s : string) : bool :=
  match string_last s with
  | Some z => f z
  | None => false
  end.

(** What is left of a successful match of [VERSION_NUMBER_REGEX] ends in a
    digit, or in the newline that [$] tolerates. *)
Definition ends_in_digit_or_newline (s : string) : bool :=
  ends_in is_digit s || ends_in is_newline s.

(** ** Descriptions and scores *)

Section FilterVocabulary.
Context `{External}.
Variable G : Globals.

(** The description of the crate [t] is absent, empty or whitespace only. *)
Definition blank_description (t : string) : bool :=
  match crates G !! t with
  | Some ct => blank (description ct)
  | None => false
  end.

(** The description of the crate [t], when it is not blank. *)
Definition text_of (t : string) : option string :=
  match crates G !! t with
  | Some ct =>
      match description ct with
      | Some d => if blank (Some d) then None else Some d
      | None => None
      end
  | None => None
  end.

(** The crate [t] has a text and the model gives it the zero vector. *)
Definition zero_norm_target (t : string) : bool :=
  match text_of t with
  | Some d => float_is_zero (vector_norm (nlp d))
  | None => false
  end.

(** The score that the semantic branch records for [t]: the similarity of
    its text with [refdoc], when it is over the threshold. *)
Definition semantic_score (refdoc : Doc) (t : string) : option score :=
  match text_of t with
  | Some d =>
      let sim := similarity refdoc (nlp d) in
      if PrimFloat.ltb (similarity_threshold (args G)) sim
      then Some (FloatScore sim) else None
  | None => None
  end.

(** Semantic mode: the candidate [package] has the text [descr] and the
    model gives it a vector of non-zero norm. *)
Definition semantic_mode (package descr : string) : Prop :=
  text_of package = Some descr
  ∧ float_is_zero (vector_norm (nlp descr)) = false.

End FilterVocabulary.

(** ** The order of the alerts *)

(** [a < b] on [str]: the lexicographic order of the code points. *)
Definition str_lt (a b : string) : Prop := String.ltb a b = true.

(** ** Valid names *)

(** A non-empty string over [[A-Za-z0-9_-]]. *)
Definition valid_crate_name (s : string) : bool :=
  negb (String.eqb s "") && string_forallb is_name_char s.

(** ** The shape of the bitflip index *)

(** Every key of [d] has a non-empty list, made of names of [P] of which the
    key is a bitflip. *)
Definition index_sound (P : gset string) (d : gmap string (list string))
  : Prop :=
  ∀ k l, d !! k = Some l → l ≠ [] ∧ ∀ p, p ∈ l → p ∈ P ∧ k ∈ blips p.

(** The inner loop of [generate_bitflips], for one crate. *)
Definition record_blips (crate_name : string) (d : gmap string (list string))
    (bfs : list string) : gmap string (list string) :=
  foldl (λ d bf, setdefault_append d bf crate_name) d bfs.

(** The outer loop, over the crates [cs]. *)
Definition record_crates (d : gmap string (list string)) (cs : list string)
  : gmap string (list string) :=
  foldl (λ d crate_name, record_blips crate_name d (blips crate_name)) d cs.

(** [d] lists [p] under the key [k]. *)
Definition index_has (d : gmap string (list string)) (k p : string) : Prop :=
  ∃ l, d !! k = Some l ∧ p ∈ l.

(** ** Admissible targets *)

(** [t] is an admissible target for the candidate [c]: it is popular, it is
    not [c], and the two crates have no owner in common. *)
Definition admissible (G : Globals) (c t : string) : Prop :=
  t ∈ popular_package_set G ∧ t ≠ c ∧ same_author G c t = Ok false.

(** ** The mutators with a [return_all] flag *)

Definition tested_mutators
  : list (Globals → string → bool → result (list string)) :=
  [ repeated_characters; omitted_chars; swapped_characters; swapped_words;
    common_typos ].

(** ** Well-formed globals *)

(** Every popular name is a key of [crates]: [populate_crate_lists] takes the
    popular set from the keys of the dict and only adds keys afterwards. *)
Definition popular_in_crates (G : Globals) : Prop :=
  popular_package_set G ⊆ dom (crates G).

(** ** Example corpora *)

Definition example_package (n : string) (owner : string) (d : option string)
  : Package :=
  {| name := n; homepage := None; repository := None; documentation := None;
     description := d; downloads := 0; authors := [Some owner] |}.

(** The globals as [populate_crate_lists] leaves them when the database has
    the packages [popular] as its most popular ones and [others] as the
    recently updated ones, for a run with [--top] set to the number of
    popular packages.  [popular_package_list] is the view [crates.keys()],
    which also shows the keys added after the popular set was taken. *)
Definition example_globals (popular others : list Package) : Globals :=
  let popular_names := map name popular in
  {| popular_package_list := map name (popular ++ others);
     popular_package_set := list_to_set popular_names;
     popular_bitflips := generate_bitflips (list_to_set popular_names);
     crates := list_to_map (map (λ c, (name c, c)) (popular ++ others));
     args := {| check_days := DEFAULT_CHECK_DAYS;
                most_popular := Z.of_nat (length popular);
                similarity_threshold := DEFAULT_SIMILARITY_THRESHOLD;
                levenshtein_threshold := DEFAULT_LEVENSHTEIN_THRESHOLD |} |}.

(** The first end-to-end scenario of the specification, with more
    candidates. *)
Definition react_corpus : Globals :=
  example_globals
    [ example_package "react" "A" (Some "a view library") ]
    [ example_package "reeact" "B" (Some "a view library");
      example_package "react-02" "B" (Some "a view library");
      example_package "react_17" "A" (Some "a view library");
      example_package "reactor" "B" (Some "a view library") ].

(** The text that the example model has no vector for. *)
Definition unknown_text : string := "zxqv".

(** A stand-in for the language model and the other services: a description
    is its own document, every text but [unknown_text] has a vector of norm
    1, any two documents have the similarity [sim], the edit distance is 0
    between equal texts and 100 otherwise, and no crate has a version to
    download. *)
Definition example_external (sim : float) : External :=
  {| Doc := string;
     nlp := λ d, d;
     vector_norm := λ doc,
       if String.eqb doc unknown_text then 0%float else 1%float;
     similarity := λ _ _, sim;
     Levenshtein_distance := λ a b,
       match b with
       | Some b => Ok (if String.eqb a b then 0 else 100)
       | None => Raise TypeError
       end;
     download_latest := λ _, Ok None |}.

(** The model under which every similarity is exactly the default
    threshold, and the one under which it is 1. *)
Definition threshold_external : External :=
  example_external DEFAULT_SIMILARITY_THRESHOLD.
Definition similar_external : External := example_external 1%float.

(** Popular crates with a text, without a description, with a description of
    spaces and with a text out of the vocabulary. *)
Definition filter_corpus : Globals :=
  example_globals
    [ example_package "react" "A" (Some "a view library");
      example_package "lodash" "A" None;
      example_package "serde" "A" (Some "   ");
      example_package "tokio" "A" (Some unknown_text) ]
    [ example_package "reeact" "B" (Some "a view library");
      example_package "lodahs" "B" None ].

(** The owner of [react] also publishes [seact], one flipped bit away from
    it, and [raect], one swap away from it. *)
Definition bitflip_corpus : Globals :=
  example_globals
    [ example_package "react" "A" (Some "a view library") ]
    [ example_package "seact" "A" (Some "a view library");
      example_package "raect" "A" (Some "a view library");
      example_package "reeact" "B" (Some "a view library") ].

(** [a] followed by a newline: [J] is [0x4A] and the newline is [0x0A]. *)
Definition newline_mutant : string := String "a" (String newline "").

(** ** The edit-distance branch *)

Section LevenshteinVocabulary.
Context `{External}.
Variable G : Globals.

(** Levenshtein mode: the candidate [package] has the text [descr] and the
    model gives it the zero vector. *)
Definition levenshtein_mode (package descr : string) : Prop :=
  text_of G package = Some descr
  ∧ float_is_zero (vector_norm (nlp descr)) = true.

(** The score that the edit-distance branch records for [t]: the distance
    between [descr] and the description of [t] as the dict has it, when it
    is under the threshold. *)
Definition levenshtein_score (descr t : string) : option score :=
  match crates G !! t with
  | Some ct =>
      match Levenshtein_distance descr (description ct) with
      | Ok dist =>
          if dist <? levenshtein_threshold (args G)
          then Some (IntScore dist) else None
      | Raise _ => None
      end
  | None => None
  end.

End LevenshteinVocabulary.

(** Crates whose text is out of the vocabulary of the example model. *)
Definition levenshtein_corpus : Globals :=
  example_globals
    [ example_package "tokio" "A" (Some unknown_text);
      example_package "react" "A" (Some "a view library") ]
    [ example_package "tokoi" "B" (Some unknown_text) ].

(** A crate with the signature of the first entry of the allowlist, one
    repeated character away from [react]. *)
Definition allowlist_corpus : Globals :=
  example_globals
    [ example_package "react" "A" (Some "a view library") ]
    [ {| name := "reeact";
         homepage := Some "https://xkcd.com/386";
         repository := Some "https://github.com/blallo/xkcd-386";
         documentation := Some "https://crates.io/policies";
         description := Some "a view library";
         downloads := 0;
         authors := [Some "blallo"] |} ].

(** ** One iteration of the driver *)

Section DriverVocabulary.
Context `{External}.
Variable G : Globals.

(** What the body of the loop of [main] does for one crate: nothing, one
    [WARNING] line, or an exception that nothing catches. *)
Inductive outcome : Type :=
| NoAlert
| PrintAlert (a : Alert)
| Abort (e : exn).

Definition crate_outcome (crate_name : string) : outcome :=
  match get_typosquatting_targets G crate_name with
  | Raise e => Abort e
  | Ok targets =>
      if (targets_len targets =? 0)%nat then NoAlert
      else
        match download_latest crate_name with
        | Raise e => Abort e
        | Ok localfile =>
            match crates_get G crate_name with
            | Raise e => Abort e
            | Ok c =>
                PrintAlert
                  {| alert_crate := crate_name;
                     alert_file := default "no versions available" localfile;
                     alert_downloads := downloads c;
                     alert_targets := targets |}
            end
        end
  end.

End DriverVocabulary.

(** The services of [similar_external], with a downloader that fails. *)
Definition offline_external : External :=
  {| Doc := string;
     nlp := λ d, d;
     vector_norm := λ doc,
       if String.eqb doc unknown_text then 0%float else 1%float;
     similarity := λ _ _, 1%float;
     Levenshtein_distance := λ a b,
       match b with
       | Some b => Ok (if String.eqb a b then 0 else 100)
       | None => Raise TypeError
       end;
     download_latest := λ _, Raise RuntimeError |}.

(** The second alert of the run on [bitflip_corpus]. *)
Definition seact_alert : Alert :=
  {| alert_crate := "seact";
     alert_file := "no versions available";
     alert_downloads := 0;
     alert_targets := TargetDict {[ "react" := FloatScore 1 ]} |}.

(** ** The rows behind a dict of crates *)

(** The rows of the crate [k] among [rows]. *)
Definition rows_of (k : string) (rows : list Row) : list Row :=
  List.filter (λ r, String.eqb (row_name r) k) rows.

(** [d] is the dict that the rows [rows] build: its keys are the names of
    the rows, in the order of their first row and without repetition, and
    each crate has its name, the columns of its first row and the logins of
    its rows in their order. *)
Definition built_from (d : CrateDict) (rows : list Row) : Prop :=
  NoDup (dict_keys d)
  ∧ (∀ k, k ∈ dict_keys d ↔ k ∈ dom (dict_items d))
  ∧ (∀ k, k ∈ dom (dict_items d) ↔ ∃ r, r ∈ rows ∧ row_name r = k)
  ∧ ∀ k c, dict_items d !! k = Some c →
      name c = k
      ∧ authors c = map row_login (rows_of k rows)
      ∧ ∃ r rest, rows_of k rows = r :: rest
          ∧ homepage c = row_homepage r
          ∧ repository c = row_repository r
          ∧ documentation c = row_documentation r
          ∧ description c = row_description r
          ∧ downloads c = row_downloads r.

(** Two rows for [react], with two owners, and a recent crate without
    owner. *)
Definition example_row (n : string) (login : option string) : Row :=
  {| row_name := n; row_login := login; row_homepage := None;
     row_repository := None; row_documentation := None;
     row_description := Some "a view library"; row_downloads := 7 |}.

Definition example_args (top : Z) : Args :=
  {| check_days := DEFAULT_CHECK_DAYS; most_popular := top;
     similarity_threshold := DEFAULT_SIMILARITY_THRESHOLD;
     levenshtein_threshold := DEFAULT_LEVENSHTEIN_THRESHOLD |}.

Definition example_top_rows : list Row :=
  [ example_row "react" (Some "A"); example_row "react" (Some "B") ].

Definition example_other_rows : list Row :=
  [ example_row "reeact" None; example_row "react" (Some "A") ].

(** The globals that the example rows give for [--top 1]. *)
Definition example_populated : Globals :=
  match populate_crate_lists (example_args 1) example_top_rows
          example_other_rows with
  | Populated G => G
  | SystemExit _ => example_globals [] []
  end.

(** A popular crate whose text is out of the vocabulary, and a candidate
    with a text, one swap away from it. *)
Definition zero_norm_corpus : Globals :=
  example_globals
    [ example_package "tokio" "A" (Some unknown_text) ]
    [ example_package "tokoi" "B" (Some "a view library") ].

(** A popular crate with a doubled letter and the candidate without it. *)
Definition doubled_corpus : Globals :=
  example_globals
    [ example_package "reeact" "A" (Some "a view library") ]
    [ example_package "react" "B" (Some "a view library") ].

(** The second end-to-end scenario of the specification, with one more
    candidate. *)
Definition words_corpus : Globals :=
  example_globals
    [ example_package "event-stream" "A" (Some "streams") ]
    [ example_package "stream-event" "B" (Some "streams");
      example_package "event_stream" "B" (Some "streams") ].

(** * Properties *)

(** Closed facts about the example corpora are settled by evaluation. *)
Ltac by_evaluation := apply (bool_decide_unpack _); vm_compute; exact I.

(** ** Strings *)

(** Concatenation computes on a literal head in the proofs below. *)
#[local] Arguments String.append !s1 s2 : simpl nomatch.

Lemma append_nil_r (s : string) : s +:+ "" = s.
Proof. induction s as [|c s IH]; simpl; [done | by rewrite IH]. Qed.

Lemma append_assoc (s1 s2 s3 : string) :
  (s1 +:+ s2) +:+ s3 = s1 +:+ (s2 +:+ s3).
Proof. induction s1 as [|c s1 IH]; simpl; [done | by rewrite IH]. Qed.

Lemma bool_decide_elem_of_cons_eq (t : string) (l : list string) :
  bool_decide (t ∈ t :: l) = true.
Proof. apply bool_decide_eq_true_2, list_elem_of_here. Qed.

Lemma bool_decide_elem_of_cons_ne (t t0 : string) (l : list string) :
  t ≠ t0 → bool_decide (t ∈ t0 :: l) = bool_decide (t ∈ l).
Proof.
  intros Hne. apply bool_decide_ext. rewrite elem_of_cons.
  split; [by intros [?|?] | by right].
Qed.

Lemma is_delimiter_not_digit (c : ascii) :
  is_delimiter c = true → is_digit c = false.
Proof.
  unfold is_delimiter. intros [Hc | Hc]%orb_true_iff;
    apply Ascii.eqb_eq in Hc; subst c; reflexivity.
Qed.

Lemma is_delimiter_not_newline (c : ascii) :
  is_delimiter c = true → Ascii.eqb c newline = false.
Proof.
  unfold is_delimiter. intros [Hc | Hc]%orb_true_iff;
    apply Ascii.eqb_eq in Hc; subst c; reflexivity.
Qed.

Lemma is_digit_not_newline (c : ascii) :
  is_digit c = true → Ascii.eqb c newline = false.
Proof.
  intros Hd. destruct (Ascii.eqb c newline) eqn:E; [|done].
  apply Ascii.eqb_eq in E. subst c. discriminate Hd.
Qed.

(** ** The version-number pattern *)

Lemma more_digits_end_digits (ds : string) :
  string_forallb is_digit ds = true → more_digits_end ds = true.
Proof.
  induction ds as [|c ds IH]; simpl; [done|].
  intros [Hc Hds]%andb_true_iff. rewrite Hc, (IH Hds). done.
Qed.

Lemma digits_end_digit_run (ds : string) :
  digit_run ds = true → digits_end ds = true.
Proof.
  unfold digit_run. destruct ds as [|c ds]; simpl; [done|].
  intros [Hc Hds]%andb_true_iff.
  rewrite Hc. simpl. by apply more_digits_end_digits.
Qed.

Lemma version_suffix_intro (d ds : string) :
  opt_delimiter d = true → digit_run ds = true →
  version_suffix (d +:+ ds) = true.
Proof.
  intros Hd Hds. pose proof (digits_end_digit_run _ Hds) as He.
  destruct d as [|c [|c' d']]; simpl in *; try done.
  - destruct ds as [|c ds]; [done|]. simpl in *. rewrite He. apply orb_true_r.
  - rewrite Hd, He. done.
Qed.

(** A character that is followed by something and lets [\d*$] succeed is a
    digit. *)
Lemma more_digits_end_inner (a : string) (z : ascii) (b : string) :
  b ≠ "" → more_digits_end (a +:+ String z b) = true → is_digit z = true.
Proof.
  intros Hb. induction a as [|c a IH]; simpl.
  - destruct b as [|c' b']; [done|].
    rewrite orb_false_r. by intros [? _]%andb_true_iff.
  - destruct (a +:+ String z b) as [|c' r] eqn:E.
    { by destruct a. }
    rewrite orb_false_r. intros [_ ?]%andb_true_iff. by apply IH.
Qed.

Lemma digits_end_inner (a : string) (z : ascii) (b : string) :
  b ≠ "" → digits_end (a +:+ String z b) = true → is_digit z = true.
Proof.
  intros Hb. destruct a as [|c a]; simpl.
  - by intros [? _]%andb_true_iff.
  - intros [_ ?]%andb_true_iff. by eapply more_digits_end_inner.
Qed.

Lemma version_suffix_inner (c : ascii) (a : string) (z : ascii) (b : string) :
  b ≠ "" → is_digit z = false →
  version_suffix (String c (a +:+ String z b)) = false.
Proof.
  intros Hb Hz. simpl.
  destruct (digits_end (a +:+ String z b)) eqn:E1.
  { apply digits_end_inner in E1; [congruence | done]. }
  rewrite andb_false_r. simpl.
  destruct (is_digit c && more_digits_end (a +:+ String z b)) eqn:E2; [|done].
  apply andb_true_iff in E2 as [_ E2].
  apply more_digits_end_inner in E2; [congruence | done].
Qed.

(** The lazy group grows over [p] as long as the rest of the pattern does not
    match earlier. *)
Lemma version_number_search_skip (p group rest : string) :
  string_forallb not_newline p = true →
  (∀ p1 p2, p = p1 +:+ p2 → p2 ≠ "" → version_suffix (p2 +:+ rest) = false) →
  version_number_search group (p +:+ rest)
  = version_number_search (group +:+ p) rest.
Proof.
  revert group. induction p as [|c p IH]; intros group Hnl Hno.
  - simpl. by rewrite append_nil_r.
  - simpl in Hnl. apply andb_true_iff in Hnl as [Hc Hnl].
    cbn [String.append version_number_search].
    pose proof (Hno "" (String c p) eq_refl ltac:(done)) as Hs.
    change (version_suffix (String c (p +:+ rest)) = false) in Hs. rewrite Hs.
    unfold not_newline in Hc. apply negb_true_iff in Hc. rewrite Hc.
    rewrite IH; [| done |].
    + f_equal. rewrite append_assoc. done.
    + intros p1 p2 -> Hp2. apply (Hno (String c p1) p2); done.
Qed.

Lemma string_last_app (p1 : string) (c : ascii) (p2 : string) :
  string_last (p1 +:+ String c p2) = string_last (String c p2).
Proof.
  induction p1 as [|c1 p1 IH]; [done|].
  cbn [String.append]. change (string_last (String c1 ?s)) with
    (match s with EmptyString => Some c1 | _ => string_last s end).
  destruct (p1 +:+ String c p2) eqn:E; [by destruct p1 | by rewrite <- IH].
Qed.

Lemma string_snoc (s : string) :
  s = "" ∨ ∃ q z, s = q +:+ String z "" ∧ string_last s = Some z.
Proof.
  induction s as [|c s IH]; [by left | right].
  destruct IH as [-> | (q & z & -> & Hl)].
  - by exists "", c.
  - exists (String c q), z. split; [done|].
    apply (string_last_app (String c q) z "").
Qed.

Lemma no_earlier_match (p d ds p1 p2 : string) :
  opt_delimiter d = true → digit_run ds = true →
  prefix_of_suffix p d = true →
  p = p1 +:+ p2 → p2 ≠ "" →
  version_suffix (p2 +:+ (d +:+ ds)) = false.
Proof.
  intros Hd Hds Hp -> Hp2.
  assert (ds ≠ "") as Hne by (by destruct ds).
  destruct d as [|z [|z' d']]; [| |done].
  - (* no delimiter: the last character of the prefix blocks the match *)
    cbn [String.append].
    destruct (string_snoc p2) as [-> | (q & z & -> & Hl)]; [done|].
    unfold prefix_of_suffix in Hp.
    rewrite <- append_assoc, string_last_app in Hp. cbn in Hp.
    apply andb_true_iff in Hp as [Hz1 Hz2].
    apply negb_true_iff in Hz1, Hz2.
    rewrite append_assoc. cbn [String.append].
    destruct q as [|c q].
    + simpl. rewrite Hz1, Hz2. done.
    + cbn [String.append]. by apply version_suffix_inner.
  - (* the delimiter itself blocks the match *)
    simpl in Hd. cbn [String.append].
    destruct p2 as [|c p2]; [done|]. cbn [String.append].
    apply version_suffix_inner; [done|]. by apply is_delimiter_not_digit.
Qed.

Lemma version_number_search_here (group s : string) :
  version_suffix s = true → version_number_search group s = Some group.
Proof. intros Hs. destruct s; simpl in *; [done | by rewrite Hs]. Qed.

Lemma VERSION_NUMBER_REGEX_match_prefix (p d ds : string) :
  string_forallb not_newline p = true →
  opt_delimiter d = true → digit_run ds = true →
  prefix_of_suffix p d = true →
  VERSION_NUMBER_REGEX_match (p +:+ d +:+ ds) = Some p.
Proof.
  intros Hnl Hd Hds Hp. unfold VERSION_NUMBER_REGEX_match.
  rewrite version_number_search_skip; [| done |].
  - apply version_number_search_here. by apply version_suffix_intro.
  - intros p1 p2 ? ?. by eapply no_earlier_match.
Qed.

Lemma ends_in_cons (f : ascii → bool) (c : ascii) (s : string) :
  s ≠ "" → ends_in f (String c s) = ends_in f s.
Proof. by destruct s. Qed.

Lemma ends_in_digit_or_newline_cons (c : ascii) (s : string) :
  s ≠ "" → ends_in_digit_or_newline (String c s) = ends_in_digit_or_newline s.
Proof.
  intros Hs. unfold ends_in_digit_or_newline. by rewrite !ends_in_cons.
Qed.

Lemma at_end_last (s : string) :
  s ≠ "" → at_end s = true → ends_in is_newline s = true.
Proof. by destruct s as [|c [|c' s']]. Qed.

Lemma more_digits_end_last (s : string) :
  s ≠ "" → more_digits_end s = true → ends_in_digit_or_newline s = true.
Proof.
  induction s as [|c s IH]; [done|]. intros _.
  cbn [more_digits_end]. intros [[Hc Hs]%andb_true_iff | He]%orb_true_iff.
  - destruct (decide (s = "")) as [-> | Hne].
    + unfold ends_in_digit_or_newline. cbn. by rewrite Hc.
    + rewrite ends_in_digit_or_newline_cons by done. by apply IH.
  - apply at_end_last in He; [|done].
    unfold ends_in_digit_or_newline. rewrite He. apply orb_true_r.
Qed.

Lemma digits_end_last (s : string) :
  digits_end s = true → ends_in_digit_or_newline s = true.
Proof.
  destruct s as [|c s]; [done|]. cbn [digits_end].
  intros [Hc Hs]%andb_true_iff. destruct (decide (s = "")) as [-> | Hne].
  - unfold ends_in_digit_or_newline. cbn. by rewrite Hc.
  - rewrite ends_in_digit_or_newline_cons by done.
    by apply more_digits_end_last.
Qed.

Lemma version_suffix_last (s : string) :
  version_suffix s = true → ends_in_digit_or_newline s = true.
Proof.
  destruct s as [|c s]; [done|]. cbn [version_suffix].
  intros [[_ Hs]%andb_true_iff | Hs]%orb_true_iff.
  - destruct s as [|c' s']; [done|].
    rewrite ends_in_digit_or_newline_cons by done. by apply digits_end_last.
  - by apply digits_end_last.
Qed.

Lemma version_number_search_last (group s r : string) :
  version_number_search group s = Some r →
  ends_in_digit_or_newline s = true.
Proof.
  revert group. induction s as [|c s IH]; intros group; [done|].
  cbn [version_number_search].
  destruct (version_suffix (String c s)) eqn:Hv.
  { intros _. by apply version_suffix_last. }
  destruct (Ascii.eqb c newline); [done|]. intros Hs.
  destruct (decide (s = "")) as [-> | Hne]; [done|].
  rewrite ends_in_digit_or_newline_cons by done. by eapply IH.
Qed.

Lemma VERSION_NUMBER_REGEX_match_None (package_name : string) :
  ends_in is_digit package_name = false →
  ends_in is_newline package_name = false →
  VERSION_NUMBER_REGEX_match package_name = None.
Proof.
  intros Hd Hn. unfold VERSION_NUMBER_REGEX_match.
  destruct (version_number_search "" package_name) as [r|] eqn:E; [|done].
  apply version_number_search_last in E.
  unfold ends_in_digit_or_newline in E. by rewrite Hd, Hn in E.
Qed.

Lemma string_forallb_app (f : ascii → bool) (a b : string) :
  string_forallb f (a +:+ b) = string_forallb f a && string_forallb f b.
Proof.
  induction a as [|c a IH]; simpl; [done|]. by rewrite IH, andb_assoc.
Qed.

(** A name that ends in a digit splits into a prefix, the optional delimiter
    and the whole trailing run of digits. *)
Lemma version_suffix_decomposition (c : string) :
  ends_in is_digit c = true →
  ∃ p d ds, c = p +:+ d +:+ ds ∧ opt_delimiter d = true
            ∧ digit_run ds = true ∧ prefix_of_suffix p d = true.
Proof.
  induction c as [|a c IH]; [done|]. intros Hend.
  destruct (decide (c = "")) as [-> | Hne].
  { exists "", "", (String a ""). unfold ends_in in Hend. cbn in Hend.
    repeat split; try done. unfold digit_run. cbn. by rewrite Hend. }
  rewrite ends_in_cons in Hend by done.
  destruct (IH Hend) as (p & d & ds & -> & Hd & Hds & Hp).
  assert (string_forallb is_digit ds = true) as Hall
    by (unfold digit_run in Hds; by apply andb_true_iff in Hds as [_ ?]).
  destruct p as [|b p].
  - destruct d as [|z [|z' d']]; [| |done].
    + destruct (is_digit a) eqn:Ha; [|destruct (is_delimiter a) eqn:Hdel].
      * exists "", "", (String a ds). repeat split; try done.
        unfold digit_run. cbn. by rewrite Ha, Hall.
      * exists "", (String a ""), ds. repeat split; done.
      * exists (String a ""), "", ds. repeat split; try done.
        unfold prefix_of_suffix. cbn. by rewrite Ha, Hdel.
    + exists (String a ""), (String z ""), ds. repeat split; done.
  - exists (String a (String b p)), d, ds. repeat split; done.
Qed.

(** A name over the alphabet of crate names has no newline. *)
Lemma is_name_char_not_newline (c : ascii) :
  is_name_char c = true → not_newline c = true.
Proof.
  intros Hc. unfold not_newline. destruct (Ascii.eqb c newline) eqn:E; [|done].
  apply Ascii.eqb_eq in E. subst c. discriminate Hc.
Qed.

(** ** The admissibility test is total on a well-formed corpus *)

Lemma crates_get_Ok (G : Globals) (p : string) :
  p ∈ dom (crates G) → ∃ c, crates G !! p = Some c ∧ crates_get G p = Ok c.
Proof.
  intros [c Hc]%elem_of_dom. exists c. unfold crates_get. by rewrite Hc.
Qed.

Lemma same_author_loop_total (G : Globals) (authors1 : list (option string))
    (p2 : string) :
  p2 ∈ dom (crates G) → ∃ b, same_author_loop G authors1 p2 = Ok b.
Proof.
  intros (c2 & _ & Hc2)%crates_get_Ok.
  induction authors1 as [|author rest IH]; simpl; [by eexists|].
  rewrite Hc2. simpl. case_bool_decide; [by eexists | done].
Qed.

Lemma same_author_total (G : Globals) (p1 p2 : string) :
  p1 ∈ dom (crates G) → p2 ∈ dom (crates G) →
  ∃ b, same_author G p1 p2 = Ok b.
Proof.
  intros (c1 & _ & Hc1)%crates_get_Ok Hp2. unfold same_author.
  rewrite Hc1. simpl. by apply same_author_loop_total.
Qed.

Lemma is_target_total (G : Globals) (package_name s : string) :
  popular_in_crates G → package_name ∈ dom (crates G) →
  ∃ b, is_target G package_name s = Ok b.
Proof.
  intros Hwf Hp. unfold is_target. case_bool_decide as Hs; [|by eexists].
  destruct (same_author_total G package_name s) as [sa Hsa]; [done | by apply Hwf |].
  rewrite Hsa. simpl. by eexists.
Qed.

(** ** The version-numbers mutator *)

Lemma version_numbers_result (G : Globals) (package_name : string)
    (l : list string) :
  version_numbers G package_name = Ok l →
  l = [] ∨ ∃ s, VERSION_NUMBER_REGEX_match package_name = Some s ∧ l = [s].
Proof.
  unfold version_numbers.
  destruct (VERSION_NUMBER_REGEX_match package_name) as [s|]; [|left; congruence].
  destruct (is_target G package_name s) as [[]|]; simpl; [| |done].
  - right. exists s. split; congruence.
  - left. congruence.
Qed.

(** C3: a name [c] without a newline (no crate name has one) that ends in a
    digit is [p ++ d ++ ds], with [ds] its whole trailing run of digits and
    [d] the optional delimiter ([-], [_] or nothing) before it; the pattern
    captures exactly [p], and [version_numbers] returns [[p]] or [[]]
    according to the admissibility test of [p].  This holds for every such
    splitting of [c].  For [react-02] the tested name is [react].  A name
    that does not end in a digit (nor in a newline) gets the empty list. *)
Theorem version_numbers_tests_prefix :
  (∀ (G : Globals) (c : string),
     string_forallb not_newline c = true → ends_in is_digit c = true →
     ∃ p d ds, c = p +:+ d +:+ ds ∧ opt_delimiter d = true
               ∧ digit_run ds = true ∧ prefix_of_suffix p d = true
               ∧ VERSION_NUMBER_REGEX_match c = Some p
               ∧ version_numbers G c
                 = (b ← is_target G c p; if b : bool then Ok [p] else Ok []))
  ∧ (∀ (G : Globals) (p d ds : string),
       string_forallb not_newline p = true →
       opt_delimiter d = true → digit_run ds = true →
       prefix_of_suffix p d = true →
       VERSION_NUMBER_REGEX_match (p +:+ d +:+ ds) = Some p
       ∧ version_numbers G (p +:+ d +:+ ds)
         = (b ← is_target G (p +:+ d +:+ ds) p;
            if b : bool then Ok [p] else Ok []))
  ∧ VERSION_NUMBER_REGEX_match "react-02" = Some "react"
  ∧ (∀ (G : Globals) (c : string),
       ends_in is_digit c = false → ends_in is_newline c = false →
       version_numbers G c = Ok []).
Proof.
  assert (∀ (G : Globals) (p d ds : string),
    string_forallb not_newline p = true →
    opt_delimiter d = true → digit_run ds = true →
    prefix_of_suffix p d = true →
    VERSION_NUMBER_REGEX_match (p +:+ d +:+ ds) = Some p
    ∧ version_numbers G (p +:+ d +:+ ds)
      = (b ← is_target G (p +:+ d +:+ ds) p;
         if b : bool then Ok [p] else Ok [])) as Hsplit.
  { intros G p d ds Hnl Hd Hds Hp.
    pose proof (VERSION_NUMBER_REGEX_match_prefix p d ds Hnl Hd Hds Hp) as Hm.
    split; [done|]. unfold version_numbers. by rewrite Hm. }
  split; [|split; [|split]].
  - intros G c Hnl Hend.
    destruct (version_suffix_decomposition c Hend)
      as (p & d & ds & -> & Hd & Hds & Hp).
    rewrite string_forallb_app in Hnl. apply andb_true_iff in Hnl as [Hnl _].
    destruct (Hsplit G p d ds Hnl Hd Hds Hp) as [Hm Hv].
    exists p, d, ds. repeat split; done.
  - exact Hsplit.
  - reflexivity.
  - intros G c Hd Hn. unfold version_numbers.
    by rewrite VERSION_NUMBER_REGEX_match_None.
Qed.

Lemma version_numbers_tests_prefix_witness :
  version_numbers react_corpus "react-02" = Ok ["react"]
  ∧ version_numbers react_corpus "react_17" = Ok []
  ∧ version_numbers react_corpus "reactor" = Ok [].
Proof.
  destruct version_numbers_tests_prefix as (_ & Hprefix & _ & Hnone).
  split; [|split].
  - destruct (Hprefix react_corpus "react" "-" "02") as [_ Hv]; [done..|].
    exact Hv.
  - destruct (Hprefix react_corpus "react" "_" "17") as [_ Hv]; [done..|].
    exact Hv.
  - apply Hnone; reflexivity.
Defined.

(** C10: on a well-formed corpus [version_numbers] returns a list, and the
    list is empty or is the singleton of the prefix captured by the pattern;
    its length is at most one. *)
Theorem version_numbers_at_most_one (G : Globals) (package_name : string) :
  popular_in_crates G → package_name ∈ dom (crates G) →
  ∃ l, version_numbers G package_name = Ok l
       ∧ (length l ≤ 1)%nat
       ∧ (l = [] ∨ ∃ s, VERSION_NUMBER_REGEX_match package_name = Some s
                        ∧ l = [s]).
Proof.
  intros Hwf Hp.
  assert (∃ l, version_numbers G package_name = Ok l) as [l Hl].
  { unfold version_numbers.
    destruct (VERSION_NUMBER_REGEX_match package_name) as [s|]; [|by eexists].
    destruct (is_target_total G package_name s Hwf Hp) as [b ->].
    simpl. destruct b; by eexists. }
  exists l. split; [done|].
  destruct (version_numbers_result _ _ _ Hl) as [-> | (s & Hs & ->)].
  - split; [simpl; lia | by left].
  - split; [simpl; lia | right; by exists s].
Qed.

Lemma react_corpus_popular_in_crates : popular_in_crates react_corpus.
Proof. apply (bool_decide_unpack _). vm_compute. exact I. Qed.

Lemma version_numbers_at_most_one_witness :
  ∃ l, version_numbers react_corpus "react-02" = Ok l
       ∧ (length l ≤ 1)%nat
       ∧ (l = [] ∨ ∃ s, VERSION_NUMBER_REGEX_match "react-02" = Some s
                        ∧ l = [s]).
Proof.
  apply version_numbers_at_most_one.
  - exact react_corpus_popular_in_crates.
  - apply (bool_decide_unpack _). vm_compute. exact I.
Defined.

(** ** The similarity filter *)

Section FilterProperties.
Context `{External}.
Variable G : Globals.

Lemma text_of_Some (t d : string) :
  text_of G t = Some d ↔
  ∃ ct, crates G !! t = Some ct ∧ description ct = Some d
        ∧ blank (Some d) = false.
Proof.
  unfold text_of. split.
  - destruct (crates G !! t) as [ct|]; [|done].
    destruct (description ct) as [d'|] eqn:Hd; [|done].
    destruct (blank (Some d')) eqn:Hb; [done|].
    intros [= <-]. by exists ct.
  - intros (ct & -> & -> & ->). done.
Qed.

Lemma text_of_blank (t : string) :
  blank_description G t = true → text_of G t = None.
Proof.
  unfold blank_description, text_of.
  destruct (crates G !! t) as [ct|]; [|done].
  destruct (description ct) as [d|]; [|done]. by intros ->.
Qed.

Lemma text_of_not_blank (t : string) :
  t ∈ dom (crates G) → blank_description G t = false →
  ∃ d, text_of G t = Some d.
Proof.
  intros [ct Hct]%elem_of_dom. unfold blank_description, text_of.
  rewrite Hct. destruct (description ct) as [d|]; [|done].
  intros ->. by exists d.
Qed.

(** *** The loop of the blank branch *)

Lemma blank_targets_lookup (l : list string) :
  ∀ targets, Forall (λ t, t ∈ dom (crates G)) l →
  ∃ m, blank_targets G targets l = Ok m
       ∧ ∀ t, m !! t = if bool_decide (t ∈ l) && blank_description G t
                       then Some (IntScore 100) else targets !! t.
Proof.
  induction l as [|t0 rest IH]; intros targets Hl.
  - exists targets. split; [done|]. intros t.
    rewrite bool_decide_eq_false_2; [done | apply not_elem_of_nil].
  - apply Forall_cons in Hl as [Ht0 Hrest].
    apply elem_of_dom in Ht0 as [ct Hct].
    cbn [blank_targets]. unfold crates_get. rewrite Hct. cbn.
    assert (blank_description G t0 = blank (description ct)) as Hb
      by (unfold blank_description; by rewrite Hct).
    destruct (blank (description ct)).
    + destruct (IH (<[t0 := IntScore 100]> targets) Hrest) as (m & Hm & Hlk).
      exists m. split; [done|]. intros t. rewrite Hlk.
      destruct (decide (t = t0)) as [-> | Hne].
      * rewrite bool_decide_elem_of_cons_eq.
        rewrite Hb, lookup_insert_eq. cbn. by destruct (bool_decide _).
      * rewrite lookup_insert_ne by done.
        by rewrite bool_decide_elem_of_cons_ne.
    + destruct (IH targets Hrest) as (m & Hm & Hlk).
      exists m. split; [done|]. intros t. rewrite Hlk.
      destruct (decide (t = t0)) as [-> | Hne].
      * rewrite Hb, !andb_false_r. done.
      * by rewrite bool_decide_elem_of_cons_ne.
Qed.

(** *** The loop of the semantic branch *)

Lemma semantic_targets_cons (refdoc : Doc) (targets : gmap string score)
    (t : string) (rest : list string) :
  t ∈ dom (crates G) →
  semantic_targets G refdoc targets (t :: rest) =
  match text_of G t with
  | Some d =>
      if float_is_zero (vector_norm (nlp d)) then Raise (ValueError t d)
      else semantic_targets G refdoc
             (match semantic_score G refdoc t with
              | Some s => <[t := s]> targets
              | None => targets
              end) rest
  | None => semantic_targets G refdoc targets rest
  end.
Proof.
  intros [ct Hct]%elem_of_dom.
  cbn [semantic_targets]. unfold crates_get, semantic_score, text_of.
  rewrite Hct. cbn [mbind result_bind]. destruct (description ct) as [d|]; [|done].
  unfold blank. destruct (String.eqb (strip d) ""); cbn [negb]; [done|].
  destruct (float_is_zero _); [done|]. by destruct (PrimFloat.ltb _ _).
Qed.

Lemma semantic_targets_lookup (refdoc : Doc) (l : list string) :
  ∀ targets m, Forall (λ t, t ∈ dom (crates G)) l →
  semantic_targets G refdoc targets l = Ok m →
  ∀ t, m !! t = match (if bool_decide (t ∈ l)
                       then semantic_score G refdoc t else None) with
                | Some s => Some s
                | None => targets !! t
                end.
Proof.
  induction l as [|t0 rest IH]; intros targets m Hl Hm t.
  - cbn in Hm. injection Hm as <-.
    rewrite bool_decide_eq_false_2; [done | apply not_elem_of_nil].
  - apply Forall_cons in Hl as [Ht0 Hrest].
    rewrite semantic_targets_cons in Hm by done.
    destruct (text_of G t0) as [d|] eqn:Htext.
    + destruct (float_is_zero _); [done|].
      rewrite (IH _ _ Hrest Hm t).
      destruct (decide (t = t0)) as [-> | Hne].
      * rewrite bool_decide_elem_of_cons_eq.
        destruct (semantic_score G refdoc t0) as [s|] eqn:Hs.
        -- rewrite lookup_insert_eq. by destruct (bool_decide _).
        -- by destruct (bool_decide _).
      * rewrite bool_decide_elem_of_cons_ne by done.
        destruct (semantic_score G refdoc t0);
          [by rewrite lookup_insert_ne | done].
    + rewrite (IH _ _ Hrest Hm t).
      assert (semantic_score G refdoc t0 = None) as Hs
        by (unfold semantic_score; by rewrite Htext).
      destruct (decide (t = t0)) as [-> | Hne].
      * rewrite bool_decide_elem_of_cons_eq, Hs. by destruct (bool_decide _).
      * by rewrite bool_decide_elem_of_cons_ne.
Qed.

Lemma semantic_targets_Ok (refdoc : Doc) (l : list string) :
  ∀ targets, Forall (λ t, t ∈ dom (crates G)) l →
  existsb (zero_norm_target G) l = false →
  ∃ m, semantic_targets G refdoc targets l = Ok m.
Proof.
  induction l as [|t0 rest IH]; intros targets Hl Hz; [by eexists|].
  apply Forall_cons in Hl as [Ht0 Hrest].
  cbn [existsb] in Hz. apply orb_false_iff in Hz as [Hz0 Hz].
  rewrite semantic_targets_cons by done. unfold zero_norm_target in Hz0.
  destruct (text_of G t0) as [d|]; [rewrite Hz0|]; by apply IH.
Qed.

Lemma semantic_targets_Raise (refdoc : Doc) (l : list string) :
  ∀ targets, Forall (λ t, t ∈ dom (crates G)) l →
  existsb (zero_norm_target G) l = true →
  ∃ t d, semantic_targets G refdoc targets l = Raise (ValueError t d)
         ∧ t ∈ l ∧ text_of G t = Some d
         ∧ float_is_zero (vector_norm (nlp d)) = true.
Proof.
  induction l as [|t0 rest IH]; intros targets Hl Hz; [done|].
  apply Forall_cons in Hl as [Ht0 Hrest].
  rewrite semantic_targets_cons by done.
  assert (∀ targets', existsb (zero_norm_target G) rest = true →
    ∃ t d, semantic_targets G refdoc targets' rest = Raise (ValueError t d)
           ∧ t ∈ t0 :: rest ∧ text_of G t = Some d
           ∧ float_is_zero (vector_norm (nlp d)) = true) as Hlater.
  { intros targets' Hz'.
    destruct (IH targets' Hrest Hz') as (t & d & ? & ? & ? & ?).
    exists t, d. repeat split; [done | by apply list_elem_of_further | done..]. }
  cbn [existsb] in Hz. unfold zero_norm_target at 1 in Hz.
  destruct (text_of G t0) as [d|] eqn:Htext; [|by apply Hlater].
  destruct (float_is_zero (vector_norm (nlp d))) eqn:Hn; [|by apply Hlater].
  exists t0, d. repeat split; [apply list_elem_of_here | done..].
Qed.

Lemma semantic_targets_skip_blank (refdoc : Doc) (l : list string) :
  ∀ targets, Forall (λ t, t ∈ dom (crates G)) l →
  semantic_targets G refdoc targets l
  = semantic_targets G refdoc targets
      (List.filter (λ t, negb (blank_description G t)) l).
Proof.
  induction l as [|t0 rest IH]; intros targets Hl; [done|].
  apply Forall_cons in Hl as [Ht0 Hrest].
  rewrite semantic_targets_cons by done. cbn [List.filter].
  destruct (blank_description G t0) eqn:Hb; cbn [negb].
  - rewrite (text_of_blank _ Hb). by apply IH.
  - rewrite semantic_targets_cons by done.
    destruct (text_of G t0) as [d|]; [|by apply IH].
    destruct (float_is_zero _); [done | by apply IH].
Qed.

(** *** The choice of the branch *)

Lemma filter_targets_blank (package : string) (l : list string) :
  package ∈ dom (crates G) → blank_description G package = true →
  filter_targets G package l = blank_targets G ∅ l.
Proof.
  intros [cp Hcp]%elem_of_dom. unfold blank_description, filter_targets, crates_get.
  rewrite Hcp. cbn [mbind result_bind]. destruct (description cp) as [d|]; [|done].
  unfold blank. by intros ->.
Qed.

Lemma filter_targets_semantic (package descr : string) (l : list string) :
  semantic_mode G package descr →
  filter_targets G package l = semantic_targets G (nlp descr) ∅ l.
Proof.
  intros [(cp & Hcp & Hd & Hb)%text_of_Some Hn].
  unfold filter_targets, crates_get. rewrite Hcp. cbn [mbind result_bind].
  rewrite Hd. unfold blank in Hb. by rewrite Hb, Hn.
Qed.

(** *** The exceptions of the three loops *)

Lemma blank_targets_Raise (l : list string) :
  ∀ targets e, blank_targets G targets l = Raise e → ∃ t, e = KeyError t.
Proof.
  induction l as [|t0 rest IH]; intros targets e; cbn [blank_targets]; [done|].
  unfold crates_get. destruct (crates G !! t0) as [ct|]; cbn [mbind result_bind].
  - destruct (blank (description ct)); apply IH.
  - intros [= <-]. by exists t0.
Qed.

Lemma levenshtein_targets_Raise (descr : string) (l : list string) :
  ∀ targets e, levenshtein_targets G descr targets l = Raise e →
  (∃ t, e = KeyError t) ∨ (∃ a b, Levenshtein_distance a b = Raise e).
Proof.
  induction l as [|t0 rest IH]; intros targets e; cbn [levenshtein_targets];
    [done|].
  unfold crates_get. destruct (crates G !! t0) as [ct|]; cbn [mbind result_bind].
  - destruct (Levenshtein_distance descr (description ct)) as [dist|e'] eqn:E;
      cbn [mbind result_bind].
    + destruct (dist <? levenshtein_threshold (args G)); apply IH.
    + intros [= <-]. right. eauto.
  - intros [= <-]. left. by exists t0.
Qed.

Lemma semantic_targets_ValueError (refdoc : Doc) (l : list string) :
  ∀ targets t d,
  semantic_targets G refdoc targets l = Raise (ValueError t d) →
  t ∈ l ∧ text_of G t = Some d ∧ float_is_zero (vector_norm (nlp d)) = true.
Proof.
  induction l as [|t0 rest IH]; intros targets t d; [done|].
  destruct (crates G !! t0) as [ct|] eqn:Hct.
  - rewrite semantic_targets_cons by (apply elem_of_dom; eauto).
    assert (∀ targets',
      semantic_targets G refdoc targets' rest = Raise (ValueError t d) →
      t ∈ t0 :: rest ∧ text_of G t = Some d
      ∧ float_is_zero (vector_norm (nlp d)) = true) as Hlater.
    { intros targets' (? & ? & ?)%IH.
      split; [by apply list_elem_of_further | done]. }
    destruct (text_of G t0) as [d0|] eqn:Htext; [|by apply Hlater].
    destruct (float_is_zero (vector_norm (nlp d0))) eqn:Hn; [|by apply Hlater].
    intros [= <- <-]. split; [apply list_elem_of_here | done].
  - cbn [semantic_targets]. unfold crates_get. by rewrite Hct.
Qed.

(** *** The three branches *)

(** C4: when the description of the candidate is absent, empty or whitespace
    only, the filter returns a dict whose keys are exactly the potential
    targets whose description is absent, empty or whitespace only, each with
    the score 100. *)
Theorem filter_targets_blank_candidate (package : string)
    (potential_targets : list string) :
  package ∈ dom (crates G) → blank_description G package = true →
  Forall (λ t, t ∈ dom (crates G)) potential_targets →
  ∃ m, filter_targets G package potential_targets = Ok m
       ∧ ∀ t s, m !! t = Some s ↔
                t ∈ potential_targets ∧ blank_description G t = true
                ∧ s = IntScore 100.
Proof.
  intros Hp Hb Hl. rewrite filter_targets_blank by done.
  destruct (blank_targets_lookup potential_targets ∅ Hl) as (m & Hm & Hlk).
  exists m. split; [done|]. intros t s. rewrite Hlk, lookup_empty.
  case_bool_decide as Ht; cbn [andb]; [destruct (blank_description G t)|].
  - split; [by intros [= <-] | by intros (_ & _ & ->)].
  - split; [done | by intros (_ & ? & _)].
  - split; [done | by intros (? & _)].
Qed.

(** C2, amended: in semantic mode, when every potential target with a text
    has a vector, the filter returns a dict that holds [t] if and only if
    [t] has a text whose similarity with the text of the candidate is
    strictly greater than the threshold, and the score of [t] is that
    similarity. *)
Theorem filter_targets_semantic_retains (package descr : string)
    (potential_targets : list string) :
  semantic_mode G package descr →
  Forall (λ t, t ∈ dom (crates G)) potential_targets →
  existsb (zero_norm_target G) potential_targets = false →
  ∃ m, filter_targets G package potential_targets = Ok m
       ∧ ∀ t s, m !! t = Some s ↔
                t ∈ potential_targets
                ∧ ∃ d, text_of G t = Some d
                       ∧ PrimFloat.ltb (similarity_threshold (args G))
                           (similarity (nlp descr) (nlp d)) = true
                       ∧ s = FloatScore (similarity (nlp descr) (nlp d)).
Proof.
  intros Hmode Hl Hz. rewrite (filter_targets_semantic _ _ _ Hmode).
  destruct (semantic_targets_Ok (nlp descr) potential_targets ∅ Hl Hz)
    as [m Hm].
  exists m. split; [done|]. intros t s.
  rewrite (semantic_targets_lookup _ _ _ _ Hl Hm t), lookup_empty.
  unfold semantic_score. case_bool_decide as Ht.
  - destruct (text_of G t) as [d|].
    + destruct (PrimFloat.ltb _ _) eqn:Hlt.
      * split; [intros [= <-]; eauto | by intros (_ & d' & [= <-] & _ & ->)].
      * split; [done | intros (_ & d' & [= <-] & Hlt' & _); congruence].
    + split; [done | by intros (_ & d' & ? & _)].
  - split; [done | by intros (? & _)].
Qed.

(** When and only when the filter raises the [ValueError] of the semantic
    branch. *)
Lemma filter_targets_zero_norm_raises (package : string)
    (potential_targets : list string) :
  Forall (λ t, t ∈ dom (crates G)) potential_targets →
  (∀ descr, semantic_mode G package descr →
     (existsb (zero_norm_target G) potential_targets = true →
      ∃ t d, filter_targets G package potential_targets
             = Raise (ValueError t d)
             ∧ t ∈ potential_targets ∧ text_of G t = Some d
             ∧ float_is_zero (vector_norm (nlp d)) = true)
     ∧ (existsb (zero_norm_target G) potential_targets = false →
        ∃ m, filter_targets G package potential_targets = Ok m))
  ∧ ((∀ a b t d, Levenshtein_distance a b ≠ Raise (ValueError t d)) →
     ∀ t d, filter_targets G package potential_targets
            = Raise (ValueError t d) →
            ∃ descr, semantic_mode G package descr
                     ∧ t ∈ potential_targets ∧ text_of G t = Some d
                     ∧ float_is_zero (vector_norm (nlp d)) = true).
Proof.
  intros Hl. split.
  - intros descr Hmode. rewrite (filter_targets_semantic _ _ _ Hmode). split.
    + by apply semantic_targets_Raise.
    + by apply semantic_targets_Ok.
  - intros Hlev t d. unfold filter_targets, crates_get.
    destruct (crates G !! package) as [cp|] eqn:Hcp; cbn [mbind result_bind];
      [|done].
    destruct (description cp) as [descr|] eqn:Hd.
    2: { by intros [t' [=]]%blank_targets_Raise. }
    destruct (String.eqb (strip descr) "") eqn:Hb.
    { by intros [t' [=]]%blank_targets_Raise. }
    destruct (float_is_zero (vector_norm (nlp descr))) eqn:Hn.
    { intros [[t' [=]] | (a & b & Hab)]%levenshtein_targets_Raise.
      by apply Hlev in Hab. }
    intros (Ht & Htext & Hz)%semantic_targets_ValueError.
    exists descr. split; [|done]. split; [|done].
    apply text_of_Some. by exists cp.
Qed.

(** C9: in semantic mode the potential targets whose description is absent,
    empty or whitespace only do not change what the filter does, be it a dict
    or an exception: the outcome is the one for the list without them; and
    none of them is a key of the dict returned. *)
Theorem filter_targets_semantic_skips_blank (package descr : string)
    (potential_targets : list string) :
  semantic_mode G package descr →
  Forall (λ t, t ∈ dom (crates G)) potential_targets →
  filter_targets G package potential_targets
  = filter_targets G package
      (List.filter (λ t, negb (blank_description G t)) potential_targets)
  ∧ ∀ m t, filter_targets G package potential_targets = Ok m →
           blank_description G t = true → m !! t = None.
Proof.
  intros Hmode Hl. rewrite !(filter_targets_semantic _ _ _ Hmode). split.
  - by apply semantic_targets_skip_blank.
  - intros m t Hm Hb.
    rewrite (semantic_targets_lookup _ _ _ _ Hl Hm t), lookup_empty.
    unfold semantic_score. rewrite (text_of_blank _ Hb).
    by destruct (bool_decide _).
Qed.

End FilterProperties.

Lemma filter_targets_blank_candidate_witness :
  ∃ m, @filter_targets similar_external filter_corpus "lodahs"
         ["react"; "lodash"; "serde"] = Ok m
       ∧ ∀ t s, m !! t = Some s ↔
                t ∈ ["react"; "lodash"; "serde"]
                ∧ blank_description filter_corpus t = true
                ∧ s = IntScore 100.
Proof.
  apply (@filter_targets_blank_candidate similar_external).
  - by_evaluation.
  - reflexivity.
  - repeat constructor; by_evaluation.
Defined.

(** C2, as stated, fails: under [threshold_external] the similarity of the
    candidate [reeact] with the target [react] equals the threshold, so it
    is greater than or equal to it, and the filter drops [react]. *)
Lemma filter_targets_threshold_dropped :
  @semantic_mode threshold_external filter_corpus "reeact" "a view library"
  ∧ @text_of filter_corpus "react" = Some "a view library"
  ∧ PrimFloat.leb (similarity_threshold (args filter_corpus))
      (@similarity threshold_external "a view library" "a view library")
    = true
  ∧ @filter_targets threshold_external filter_corpus "reeact" ["react"]
    = Ok ∅.
Proof. repeat split; vm_compute; reflexivity. Qed.

Lemma filter_targets_semantic_retains_witness :
  ∃ m, @filter_targets similar_external filter_corpus "reeact"
         ["react"; "lodash"; "serde"] = Ok m
       ∧ ∀ t s, m !! t = Some s ↔
                t ∈ ["react"; "lodash"; "serde"]
                ∧ ∃ d, text_of filter_corpus t = Some d
                       ∧ PrimFloat.ltb
                           (similarity_threshold (args filter_corpus))
                           (@similarity similar_external
                              "a view library" d) = true
                       ∧ s = FloatScore (@similarity similar_external
                                           "a view library" d).
Proof.
  apply (@filter_targets_semantic_retains similar_external).
  - split; reflexivity.
  - repeat constructor; by_evaluation.
  - reflexivity.
Defined.

(** The exception names the target and its text. *)
Example filter_targets_tokio :
  @filter_targets similar_external filter_corpus "reeact"
    ["react"; "tokio"; "lodash"]
  = Raise (ValueError "tokio" unknown_text).
Proof. vm_compute. reflexivity. Qed.

Lemma filter_targets_semantic_skips_blank_witness :
  @filter_targets similar_external filter_corpus "reeact"
    ["lodash"; "react"; "serde"]
  = @filter_targets similar_external filter_corpus "reeact"
      (List.filter (λ t, negb (blank_description filter_corpus t))
         ["lodash"; "react"; "serde"])
  ∧ ∀ m t, @filter_targets similar_external filter_corpus "reeact"
             ["lodash"; "react"; "serde"] = Ok m →
           blank_description filter_corpus t = true → m !! t = None.
Proof.
  apply (@filter_targets_semantic_skips_blank similar_external
           filter_corpus "reeact" "a view library").
  - split; reflexivity.
  - repeat constructor; by_evaluation.
Defined.

(** ** The order on names *)

Lemma str_le_compare (a b : string) : str_le a b ↔ String.compare a b ≠ Gt.
Proof. unfold str_le, String.leb. by destruct (String.compare a b). Qed.

Lemma str_lt_compare (a b : string) : str_lt a b ↔ String.compare a b = Lt.
Proof. unfold str_lt, String.ltb. by destruct (String.compare a b). Qed.

Lemma str_lt_trans (a b c : string) : str_lt a b → str_lt b c → str_lt a c.
Proof.
  rewrite !str_lt_compare. intros Hab Hbc.
  apply OrderedTypeEx.String_as_OT.cmp_lt.
  eapply OrderedTypeEx.String_as_OT.lt_trans;
    by apply OrderedTypeEx.String_as_OT.cmp_lt.
Qed.

Lemma str_le_lt_or_eq (a b : string) : str_le a b ↔ str_lt a b ∨ a = b.
Proof.
  rewrite str_le_compare, str_lt_compare. split.
  - destruct (String.compare a b) eqn:E; [|by left|done].
    right. by apply String.compare_eq_iff.
  - intros [-> | ->]; [done|].
    destruct (String.compare b b) eqn:E; [done..|].
    pose proof (String.compare_antisym b b) as Ha. rewrite E in Ha. done.
Qed.

#[local] Instance str_le_trans : Transitive str_le.
Proof.
  intros a b c. rewrite !str_le_lt_or_eq.
  intros [Hab | ->] [Hbc | ->]; eauto using str_lt_trans.
Qed.

#[local] Instance str_le_total : Total str_le.
Proof.
  intros a b. rewrite !str_le_compare, (String.compare_antisym b a).
  destruct (String.compare a b); cbn; [left | left | right]; done.
Qed.

Lemma StronglySorted_str_lt (l : list string) :
  StronglySorted str_le l → NoDup l → StronglySorted str_lt l.
Proof.
  induction 1 as [|x l Hl IH Hx]; intros Hnd; constructor.
  - apply IH. by eapply NoDup_cons_1_2.
  - apply NoDup_cons in Hnd as [Hnotin _].
    rewrite Forall_forall in Hx |- *. intros y Hy.
    destruct (proj1 (str_le_lt_or_eq x y) (Hx y Hy)) as [? | ->]; done.
Qed.

Lemma StronglySorted_lookup_lt {A} (R : relation A) (l : list A)
    (i j : nat) (x y : A) :
  StronglySorted R l → (i < j)%nat →
  l !! i = Some x → l !! j = Some y → R x y.
Proof.
  intros Hl. revert i j. induction Hl as [|z l Hl IH Hz]; intros i j Hij Hi Hj.
  - done.
  - destruct j as [|j]; [lia|]. cbn in Hj. destruct i as [|i].
    + cbn in Hi. injection Hi as ->. rewrite Forall_forall in Hz.
      apply Hz. by eapply list_elem_of_lookup_2.
    + cbn in Hi. apply (IH i j); [lia | done..].
Qed.

(** ** The driver *)

Section DriverProperties.
Context `{External}.
Variable G : Globals.

Lemma sorted_crates_ascending : StronglySorted str_lt (sorted_crates G).
Proof.
  unfold sorted_crates. apply StronglySorted_str_lt.
  - apply StronglySorted_merge_sort; apply _.
  - rewrite merge_sort_Permutation. apply NoDup_fst_map_to_list.
Qed.

Lemma sorted_crates_keys (c : string) :
  c ∈ sorted_crates G ↔ c ∈ dom (crates G).
Proof.
  unfold sorted_crates. rewrite merge_sort_Permutation.
  rewrite elem_of_dom, list_elem_of_fmap. split.
  - intros ([k x] & -> & Hkx%elem_of_map_to_list). by exists x.
  - intros [x Hx]. exists (c, x). split; [done | by apply elem_of_map_to_list].
Qed.

Lemma main_alerts : (main G).1 = (main_loop G (sorted_crates G) [] 0).1.
Proof. unfold main. by destruct (main_loop G (sorted_crates G) [] 0). Qed.

(** Every alert printed by the loop was printed before, or is for one of the
    names of the loop, with the dict that the detector returned for it. *)
Lemma main_loop_alert (names : list string) :
  ∀ printed n a, a ∈ (main_loop G names printed n).1 →
  a ∈ printed
  ∨ (alert_crate a ∈ names
     ∧ get_typosquatting_targets G (alert_crate a) = Ok (alert_targets a)
     ∧ targets_len (alert_targets a) ≠ 0%nat).
Proof.
  induction names as [|c rest IH]; intros printed n a; cbn [main_loop].
  { by left. }
  destruct (get_typosquatting_targets G c) as [targets|e] eqn:Ht; [|by left].
  destruct (targets_len targets =? 0)%nat eqn:Hlen.
  { intros [? | (? & ? & ?)]%IH; [by left | right].
    split; [by apply list_elem_of_further | done]. }
  destruct (download_latest c); [|by left].
  destruct (crates_get G c); [|by left].
  intros [[? | Hnew]%elem_of_app | (? & ? & ?)]%IH.
  - by left.
  - apply list_elem_of_singleton in Hnew as ->. right. cbn.
    split; [apply list_elem_of_here|]. split; [done|]. by apply Nat.eqb_neq.
  - right. split; [by apply list_elem_of_further | done].
Qed.

(** The names of the alerts stay in ascending order when the names of the
    loop are ascending and greater than the names already printed. *)
Lemma main_loop_ascending (names : list string) :
  ∀ printed n,
  StronglySorted str_lt names →
  StronglySorted str_lt (map alert_crate printed) →
  (∀ a c, a ∈ printed → c ∈ names → str_lt (alert_crate a) c) →
  StronglySorted str_lt (map alert_crate (main_loop G names printed n).1).
Proof.
  induction names as [|c rest IH]; intros printed n Hnames Hprinted Hlt;
    cbn [main_loop]; [done|].
  apply StronglySorted_inv in Hnames as [Hrest Hc].
  rewrite Forall_forall in Hc.
  assert (∀ a c', a ∈ printed → c' ∈ rest → str_lt (alert_crate a) c')
    as Hlt' by (intros a c' ? ?; apply Hlt; [done | by apply list_elem_of_further]).
  destruct (get_typosquatting_targets G c) as [targets|e]; [|done].
  destruct (targets_len targets =? 0)%nat; [by apply IH|].
  destruct (download_latest c) as [localfile|]; [|done].
  destruct (crates_get G c) as [pkg|]; [|done].
  apply IH; [done | |].
  - rewrite map_app. apply StronglySorted_app. split; [|split].
    + intros x1 x2 (a & -> & Ha)%list_elem_of_fmap Hx2. cbn in Hx2.
      apply list_elem_of_singleton in Hx2 as ->.
      apply Hlt; [done | apply list_elem_of_here].
    + done.
    + cbn. repeat constructor.
  - intros a c' [Ha | Ha]%elem_of_app Hc'; [by apply Hlt'|].
    apply list_elem_of_singleton in Ha as ->. cbn. by apply Hc.
Qed.

(** C7: for a crate [c] of the popular set the detector returns the empty
    list, and no alert of the run is about [c]. *)
Theorem popular_crate_never_suspect (c : string) :
  c ∈ popular_package_set G →
  get_typosquatting_targets G c = Ok (TargetList [])
  ∧ targets_len (TargetList []) = 0%nat
  ∧ ∀ a, a ∈ (main G).1 → alert_crate a ≠ c.
Proof.
  intros Hc.
  assert (get_typosquatting_targets G c = Ok (TargetList [])) as Hget.
  { unfold get_typosquatting_targets. by rewrite bool_decide_eq_true_2. }
  split; [done|]. split; [done|].
  intros a Ha Heq. rewrite main_alerts in Ha.
  apply main_loop_alert in Ha as [Ha | (_ & Ht & Hlen)].
  - by apply not_elem_of_nil in Ha.
  - rewrite Heq, Hget in Ht. injection Ht as Ht. rewrite <- Ht in Hlen. done.
Qed.

(** C8: the names of the alerts of one run are in strictly ascending
    lexicographic order: of two alerts, the one printed earlier has the
    smaller name. *)
Theorem alerts_ascending :
  StronglySorted str_lt (map alert_crate (main G).1)
  ∧ ∀ i j a b, (i < j)%nat →
      (main G).1 !! i = Some a → (main G).1 !! j = Some b →
      str_lt (alert_crate a) (alert_crate b).
Proof.
  assert (StronglySorted str_lt (map alert_crate (main G).1)) as Hsorted.
  { rewrite main_alerts. apply main_loop_ascending.
    - apply sorted_crates_ascending.
    - constructor.
    - intros a c Ha. by apply not_elem_of_nil in Ha. }
  split; [done|]. intros i j a b Hij Ha Hb.
  apply (StronglySorted_lookup_lt str_lt (map alert_crate (main G).1) i j);
    [done.. | |]; rewrite list_lookup_fmap; [by rewrite Ha | by rewrite Hb].
Qed.

End DriverProperties.

Lemma popular_crate_never_suspect_witness :
  @get_typosquatting_targets similar_external filter_corpus "react"
  = Ok (TargetList [])
  ∧ targets_len (TargetList []) = 0%nat
  ∧ ∀ a, a ∈ (@main similar_external filter_corpus).1 →
         alert_crate a ≠ "react".
Proof.
  apply (@popular_crate_never_suspect similar_external filter_corpus "react").
  by_evaluation.
Defined.

(** The run on [bitflip_corpus] prints two alerts, in this order. *)
Example main_bitflip_corpus :
  map alert_crate (@main similar_external bitflip_corpus).1
  = ["reeact"; "seact"].
Proof. vm_compute. reflexivity. Qed.

(** ** The mutators that test their results *)

Section Admissibility.
Variable G : Globals.

Lemma is_target_true (c s : string) :
  is_target G c s = Ok true ↔ admissible G c s.
Proof.
  unfold is_target, admissible. case_bool_decide as Hs.
  - destruct (same_author G c s) as [[]|e]; cbn [mbind result_bind negb andb].
    + split; [done | by intros (_ & _ & ?)].
    + destruct (String.eqb s c) eqn:E; cbn [negb].
      * apply String.eqb_eq in E. split; [done | by intros (_ & ? & _)].
      * apply String.eqb_neq in E. done.
    + split; [done | by intros (_ & _ & ?)].
  - split; [done | by intros (? & _)].
Qed.

Lemma record_targets_admissible (c : string) (generated : list string) :
  ∀ l, record_targets G c generated = Ok l →
  Forall (λ t, t ∈ generated ∧ admissible G c t) l.
Proof.
  induction generated as [|s rest IH]; intros l; cbn [record_targets].
  { intros [= <-]. constructor. }
  destruct (is_target G c s) as [b|] eqn:Hb; cbn [mbind result_bind]; [|done].
  destruct (record_targets G c rest) as [targets|]; cbn [mbind result_bind];
    [|done].
  intros [= <-].
  assert (Forall (λ t, t ∈ s :: rest ∧ admissible G c t) targets) as Hrest.
  { eapply Forall_impl; [by apply IH|]. intros t [? ?].
    split; [by apply list_elem_of_further | done]. }
  destruct b; [|done]. constructor; [|done].
  split; [apply list_elem_of_here | by apply is_target_true].
Qed.

Lemma record_targets_complete (c : string) (generated : list string) :
  ∀ l, record_targets G c generated = Ok l →
  ∀ t, t ∈ generated → admissible G c t → t ∈ l.
Proof.
  induction generated as [|s rest IH]; intros l; cbn [record_targets].
  { intros _ t Ht. by apply not_elem_of_nil in Ht. }
  destruct (is_target G c s) as [b|] eqn:Hb; cbn [mbind result_bind]; [|done].
  destruct (record_targets G c rest) as [targets|]; cbn [mbind result_bind];
    [|done].
  intros [= <-] t [-> | Ht]%elem_of_cons Hadm.
  - apply is_target_true in Hadm. rewrite Hadm in Hb. injection Hb as <-.
    apply list_elem_of_here.
  - specialize (IH targets eq_refl t Ht Hadm).
    destruct b; [by apply list_elem_of_further | done].
Qed.

Lemma get_most_popular_package_elem (packages : list string) (p : string) :
  get_most_popular_package G packages = Ok p → p ∈ packages.
Proof.
  unfold get_most_popular_package.
  destruct (List.find _ _) as [q|] eqn:Hfind.
  - intros [= <-]. apply find_some in Hfind as [_ Hq].
    apply bool_decide_eq_true_1 in Hq. by apply elem_of_list_to_set in Hq.
  - destruct packages as [|q rest]; [done|].
    intros [= <-]. apply list_elem_of_here.
Qed.

Lemma return_targets_sublist (return_all : bool) (targets l : list string) :
  return_targets G return_all targets = Ok l → ∀ t, t ∈ l → t ∈ targets.
Proof.
  unfold return_targets. destruct (return_all || _).
  - by intros [= <-].
  - destruct (get_most_popular_package G targets) as [p|] eqn:Hp;
      cbn [mbind result_bind]; [|done].
    intros [= <-] t ->%list_elem_of_singleton.
    by apply get_most_popular_package_elem.
Qed.

(** What a mutator with the common tail returns, from the names it
    generates. *)
Lemma tested_targets_admissible (c : string) (generated : list string)
    (return_all : bool) (l : list string) :
  (targets ← record_targets G c generated;
   return_targets G return_all targets) = Ok l →
  ∀ t, t ∈ l → t ∈ generated ∧ admissible G c t.
Proof.
  destruct (record_targets G c generated) as [targets|] eqn:Hr;
    cbn [mbind result_bind]; [|done].
  intros Hl t Ht. apply (return_targets_sublist _ _ _ Hl) in Ht.
  apply record_targets_admissible in Hr. rewrite Forall_forall in Hr.
  by apply Hr.
Qed.

End Admissibility.

(** ** The bitflip lookup *)

(** C1 fails for the bitflip lookup: [seact] and [raect] both have the owner
    of [react]; the swapped-characters mutator finds [react] for [raect] and
    discards it, while [bitflips] returns [react] for [seact] as the index
    has it, and the run prints an alert for [seact] with the target
    [react]. *)
Theorem bitflips_ignores_owner :
  same_author bitflip_corpus "raect" "react" = Ok true
  ∧ "react" ∈ swapped_characters_names "raect"
  ∧ @get_typosquatting_targets similar_external bitflip_corpus "raect"
    = Ok (TargetDict ∅)
  ∧ same_author bitflip_corpus "seact" "react" = Ok true
  ∧ bitflips bitflip_corpus "seact" = Ok ["react"]
  ∧ @get_typosquatting_targets similar_external bitflip_corpus "seact"
    = Ok (TargetDict {[ "react" := FloatScore 1 ]})
  ∧ "seact" ∈ map alert_crate (@main similar_external bitflip_corpus).1.
Proof.
  repeat split; try (vm_compute; reflexivity); by_evaluation.
Qed.

(** ** The bitflip index *)

Lemma flip_bit_changes (c : ascii) :
  forallb (λ k, negb (Ascii.eqb (flip_bit k c) c)) (seq 0 8) = true.
Proof. destruct c as [[] [] [] [] [] [] [] []]; vm_compute; reflexivity. Qed.

Lemma get_blips_neq (p k : string) : k ∈ get_blips p → k ≠ p.
Proof.
  revert k. induction p as [|c p IH]; intros k; cbn [get_blips].
  { by intros ?%not_elem_of_nil. }
  intros [(i & -> & Hi)%list_elem_of_fmap | (k' & -> & Hk')%list_elem_of_fmap]%elem_of_app.
  - pose proof (flip_bit_changes c) as Hall.
    rewrite forallb_forall in Hall. apply list_elem_of_In in Hi.
    specialize (Hall i Hi). apply negb_true_iff, Ascii.eqb_neq in Hall.
    congruence.
  - specialize (IH k' Hk'). congruence.
Qed.

Lemma elem_of_blips (p k : string) :
  k ∈ blips p ↔
  k ∈ get_blips p ∧ string_forallb is_ascii k = true
  ∧ CRATE_NAME_REGEX_search k = true.
Proof.
  unfold blips, get_string_blips.
  rewrite !list_elem_of_In, !filter_In. tauto.
Qed.

Lemma blips_neq (p k : string) : k ∈ blips p → k ≠ p.
Proof. intros [? _]%elem_of_blips. by apply get_blips_neq. Qed.

Lemma setdefault_append_sound (P : gset string) (d : gmap string (list string))
    (bf crate_name : string) :
  index_sound P d → crate_name ∈ P → bf ∈ blips crate_name →
  index_sound P (setdefault_append d bf crate_name).
Proof.
  intros Hd Hc Hbf k l. unfold setdefault_append.
  destruct (decide (k = bf)) as [-> | Hne].
  - rewrite lookup_insert_eq. intros [= <-]. split.
    + by destruct (default [] (d !! bf)).
    + intros p [Hp | ->%list_elem_of_singleton]%elem_of_app; [|done].
      destruct (d !! bf) as [l0|] eqn:E; cbn in Hp.
      * by apply (Hd bf l0).
      * by apply not_elem_of_nil in Hp.
  - rewrite lookup_insert_ne by done. apply Hd.
Qed.

Lemma setdefault_append_has (d : gmap string (list string))
    (bf crate_name : string) :
  index_has (setdefault_append d bf crate_name) bf crate_name.
Proof.
  unfold index_has, setdefault_append. eexists.
  rewrite lookup_insert_eq. split; [done|].
  apply elem_of_app. right. apply list_elem_of_here.
Qed.

Lemma setdefault_append_keeps (d : gmap string (list string))
    (bf crate_name k p : string) :
  index_has d k p → index_has (setdefault_append d bf crate_name) k p.
Proof.
  intros (l & Hl & Hp). unfold index_has, setdefault_append.
  destruct (decide (k = bf)) as [-> | Hne].
  - eexists. rewrite lookup_insert_eq. split; [done|].
    rewrite Hl. cbn. apply elem_of_app. by left.
  - exists l. by rewrite lookup_insert_ne.
Qed.

Section IndexLoops.
Variable P : gset string.

Lemma record_blips_sound (crate_name : string) (bfs : list string) :
  ∀ d, index_sound P d → crate_name ∈ P →
  (∀ bf, bf ∈ bfs → bf ∈ blips crate_name) →
  index_sound P (record_blips crate_name d bfs).
Proof.
  induction bfs as [|bf bfs IH]; intros d Hd Hc Hbfs; [done|].
  cbn. apply IH; [|done|].
  - apply setdefault_append_sound; [done..|]. apply Hbfs, list_elem_of_here.
  - intros bf' ?. by apply Hbfs, list_elem_of_further.
Qed.

Lemma record_blips_keeps (crate_name : string) (bfs : list string) (k p : string) :
  ∀ d, index_has d k p → index_has (record_blips crate_name d bfs) k p.
Proof.
  induction bfs as [|bf bfs IH]; intros d Hd; [done|].
  cbn. by apply IH, setdefault_append_keeps.
Qed.

Lemma record_blips_has (crate_name : string) (bfs : list string) (bf : string) :
  ∀ d, bf ∈ bfs → index_has (record_blips crate_name d bfs) bf crate_name.
Proof.
  induction bfs as [|bf' bfs IH]; intros d Hbf.
  { by apply not_elem_of_nil in Hbf. }
  cbn. apply elem_of_cons in Hbf as [-> | Hbf]; [|by apply IH].
  apply record_blips_keeps, setdefault_append_has.
Qed.

Lemma record_crates_sound (cs : list string) :
  ∀ d, index_sound P d → (∀ c, c ∈ cs → c ∈ P) →
  index_sound P (record_crates d cs).
Proof.
  induction cs as [|c cs IH]; intros d Hd Hcs; [done|].
  cbn. apply IH.
  - apply record_blips_sound; [done | apply Hcs, list_elem_of_here | done].
  - intros c' ?. by apply Hcs, list_elem_of_further.
Qed.

Lemma record_crates_keeps (cs : list string) (k p : string) :
  ∀ d, index_has d k p → index_has (record_crates d cs) k p.
Proof.
  induction cs as [|c cs IH]; intros d Hd; [done|].
  cbn. by apply IH, record_blips_keeps.
Qed.

Lemma record_crates_has (cs : list string) (c bf : string) :
  ∀ d, c ∈ cs → bf ∈ blips c → index_has (record_crates d cs) bf c.
Proof.
  induction cs as [|c' cs IH]; intros d Hc Hbf.
  { by apply not_elem_of_nil in Hc. }
  cbn. apply elem_of_cons in Hc as [-> | Hc]; [|by apply IH].
  by apply record_crates_keeps, record_blips_has.
Qed.

End IndexLoops.

Lemma generate_bitflips_loops (P : gset string) :
  generate_bitflips P = record_crates ∅ (elements P).
Proof. reflexivity. Qed.

(** The index built from the popular set [P]: a key has a non-empty list,
    which holds exactly the names of [P] of which the key is a bitflip; a key
    differs from these names and is accepted by [CRATE_NAME_REGEX]. *)
Lemma generate_bitflips_lookup (P : gset string) (k : string)
    (l : list string) :
  generate_bitflips P !! k = Some l →
  l ≠ [] ∧ CRATE_NAME_REGEX_search k = true
  ∧ ∀ p, p ∈ l ↔ p ∈ P ∧ k ∈ blips p.
Proof.
  intros Hk.
  assert (index_sound P (generate_bitflips P)) as Hsound.
  { rewrite generate_bitflips_loops. apply record_crates_sound.
    - intros k' l'. by rewrite lookup_empty.
    - intros c. by rewrite elem_of_elements. }
  destruct (Hsound k l Hk) as [Hne Hl]. split; [done|].
  assert (∀ p, p ∈ l ↔ p ∈ P ∧ k ∈ blips p) as Hiff.
  { intros p. split; [apply Hl|]. intros [Hp Hbf].
    destruct (record_crates_has (elements P) p k ∅) as (l' & Hl' & Hpl');
      [by apply elem_of_elements | done |].
    rewrite <- generate_bitflips_loops, Hk in Hl'. by injection Hl' as <-. }
  split; [|done].
  destruct l as [|p l]; [done|].
  destruct (Hl p) as [_ Hbf]; [apply list_elem_of_here|].
  by apply elem_of_blips in Hbf as (_ & _ & ?).
Qed.

Lemma generate_bitflips_has (P : gset string) (p k : string) :
  p ∈ P → k ∈ blips p → ∃ l, generate_bitflips P !! k = Some l ∧ p ∈ l.
Proof.
  intros Hp Hk. rewrite generate_bitflips_loops.
  apply record_crates_has; [by apply elem_of_elements | done].
Qed.

(** C6 fails on the validity of the keys: [aJ] is a valid name, flipping
    bit 6 of [J] gives a newline, [CRATE_NAME_REGEX] accepts [a] followed by
    a newline because [$] also holds before a final newline, and the index
    built for the popular set [{aJ}] has this string as a key. *)
Theorem bitflip_index_newline_key :
  valid_crate_name "aJ" = true
  ∧ flip_bit 6 "J" = newline
  ∧ CRATE_NAME_REGEX_search newline_mutant = true
  ∧ newline_mutant ∈ blips "aJ"
  ∧ generate_bitflips {[ "aJ" ]} !! newline_mutant = Some ["aJ"]
  ∧ valid_crate_name newline_mutant = false.
Proof.
  repeat split; try (vm_compute; reflexivity); by_evaluation.
Qed.

(** * Further properties of the engine *)

(** ** Authorship *)

Lemma same_author_loop_spec (G : Globals) (authors1 : list (option string))
    (p2 : string) (c2 : Package) :
  crates G !! p2 = Some c2 →
  same_author_loop G authors1 p2
  = Ok (bool_decide (Exists (λ a, a ∈ authors c2) authors1)).
Proof.
  intros Hc2. induction authors1 as [|a rest IH]; cbn [same_author_loop].
  { rewrite bool_decide_eq_false_2; [done | by intros ?%Exists_nil]. }
  unfold crates_get. rewrite Hc2. cbn [mbind result_bind].
  destruct (decide (a ∈ authors c2)) as [Ha | Ha].
  - rewrite (bool_decide_eq_true_2 _ Ha).
    rewrite bool_decide_eq_true_2; [done | by apply Exists_cons_hd].
  - rewrite (bool_decide_eq_false_2 _ Ha), IH. f_equal.
    apply bool_decide_ext. rewrite Exists_cons. tauto.
Qed.

(** X1: for two crates of the corpus, [same_author] returns [True] exactly
    when some author of the first is an author of the second, and the answer
    does not depend on the order of the two crates. *)
Theorem same_author_common_owner (G : Globals) (p1 p2 : string)
    (c1 c2 : Package) :
  crates G !! p1 = Some c1 → crates G !! p2 = Some c2 →
  ∃ b, same_author G p1 p2 = Ok b
       ∧ (b = true ↔ ∃ a, a ∈ authors c1 ∧ a ∈ authors c2)
       ∧ same_author G p2 p1 = Ok b.
Proof.
  intros Hc1 Hc2.
  assert (∀ l1 l2 : list (option string),
    Exists (λ a, a ∈ l2) l1 ↔ ∃ a, a ∈ l1 ∧ a ∈ l2) as Hex
    by (intros l1 l2; apply Exists_exists).
  exists (bool_decide (Exists (λ a, a ∈ authors c2) (authors c1))).
  unfold same_author, crates_get. rewrite Hc1, Hc2. cbn [mbind result_bind].
  rewrite (same_author_loop_spec G _ p2 c2 Hc2).
  rewrite (same_author_loop_spec G _ p1 c1 Hc1).
  split; [done|]. split.
  - rewrite bool_decide_eq_true. apply Hex.
  - f_equal. apply bool_decide_ext. rewrite !Hex.
    split; intros (a & ? & ?); by exists a.
Qed.

Lemma same_author_common_owner_witness :
  ∃ b, same_author bitflip_corpus "seact" "reeact" = Ok b
       ∧ (b = true ↔ ∃ a, a ∈ [Some "A"] ∧ a ∈ [Some "B"])
       ∧ same_author bitflip_corpus "reeact" "seact" = Ok b.
Proof.
  apply (same_author_common_owner bitflip_corpus "seact" "reeact"
           (example_package "seact" "A" (Some "a view library"))
           (example_package "reeact" "B" (Some "a view library")));
    reflexivity.
Defined.

(** X2: the exceptions of [same_author]: a first crate that is missing
    raises [KeyError] for it; a first crate without authors gives [False]
    without the second crate being looked up; otherwise a missing second
    crate raises [KeyError] for it. *)
Theorem same_author_missing_crates (G : Globals) (p1 p2 : string) :
  (crates G !! p1 = None → same_author G p1 p2 = Raise (KeyError p1))
  ∧ (∀ c1, crates G !! p1 = Some c1 → authors c1 = [] →
           same_author G p1 p2 = Ok false)
  ∧ (∀ c1, crates G !! p1 = Some c1 → authors c1 ≠ [] →
           crates G !! p2 = None →
           same_author G p1 p2 = Raise (KeyError p2)).
Proof.
  unfold same_author, crates_get. repeat split.
  - by intros ->.
  - intros c1 -> Ha. cbn [mbind result_bind]. by rewrite Ha.
  - intros c1 -> Ha Hp2. cbn [mbind result_bind].
    destruct (authors c1) as [|a rest]; [done|].
    cbn [same_author_loop]. unfold crates_get. by rewrite Hp2.
Qed.

(** ** The most popular package *)

(** X3: [get_most_popular_package] raises [IndexError] on the empty list;
    what it returns is one of the packages given; when a name of
    [popular_package_list] is one of the packages, it returns the first such
    name of the list; and otherwise the first package given. *)
Theorem get_most_popular_package_first (G : Globals) :
  get_most_popular_package G [] = Raise IndexError
  ∧ (∀ packages p, get_most_popular_package G packages = Ok p →
       p ∈ packages)
  ∧ (∀ packages before p after,
       popular_package_list G = before ++ p :: after →
       p ∈ packages → (∀ q, q ∈ before → q ∉ packages) →
       get_most_popular_package G packages = Ok p)
  ∧ (∀ p packages,
       (∀ q, q ∈ popular_package_list G → q ∉ p :: packages) →
       get_most_popular_package G (p :: packages) = Ok p).
Proof.
  split; [|split; [|split]].
  - unfold get_most_popular_package.
    destruct (List.find _ _) as [q|] eqn:Hfind; [|done].
    apply find_some in Hfind as [_ Hq].
    apply bool_decide_eq_true_1 in Hq. set_solver.
  - apply get_most_popular_package_elem.
  - intros packages before p after Hlist Hp Hbefore.
    unfold get_most_popular_package. rewrite Hlist. clear Hlist.
    induction before as [|q before IH]; cbn [app List.find].
    + rewrite bool_decide_eq_true_2; [done | by apply elem_of_list_to_set].
    + rewrite bool_decide_eq_false_2.
      * apply IH. intros q' ?. by apply Hbefore, list_elem_of_further.
      * rewrite elem_of_list_to_set. apply Hbefore, list_elem_of_here.
  - intros p packages Hnone. unfold get_most_popular_package.
    destruct (List.find _ _) as [q|] eqn:Hfind; [|done].
    apply find_some in Hfind as [Hq Hin]. apply list_elem_of_In in Hq.
    apply bool_decide_eq_true_1 in Hin. apply elem_of_list_to_set in Hin.
    by apply Hnone in Hq.
Qed.

(** ** The mutators *)

Lemma return_targets_single (G : Globals) (targets l : list string) :
  return_targets G false targets = Ok l →
  (targets = [] ∧ l = [])
  ∨ ∃ p, l = [p] ∧ p ∈ targets ∧ get_most_popular_package G targets = Ok p.
Proof.
  unfold return_targets. cbn [orb]. destruct targets as [|t targets].
  - intros [= <-]. by left.
  - cbn [length Nat.eqb].
    destruct (get_most_popular_package G (t :: targets)) as [p|] eqn:Hp;
      cbn [mbind result_bind]; [|done].
    intros [= <-]. right. exists p. split; [done|]. split; [|done].
    by eapply get_most_popular_package_elem.
Qed.

Lemma tested_targets_single (G : Globals) (c : string)
    (generated l : list string) :
  (targets ← record_targets G c generated; return_targets G false targets)
  = Ok l →
  ∃ targets,
    (targets ← record_targets G c generated; return_targets G true targets)
    = Ok targets
    ∧ ((targets = [] ∧ l = [])
       ∨ ∃ p, l = [p] ∧ p ∈ targets
              ∧ get_most_popular_package G targets = Ok p).
Proof.
  destruct (record_targets G c generated) as [targets|];
    cbn [mbind result_bind]; [|done].
  intros Hl. exists targets. split; [done|]. by apply return_targets_single.
Qed.

Lemma mutator_targets_admissible (G : Globals) (c : string)
    (return_all : bool) (l : list string) :
  repeated_characters G c return_all = Ok l
  ∨ omitted_chars G c return_all = Ok l
  ∨ swapped_characters G c return_all = Ok l
  ∨ swapped_words G c return_all = Ok l
  ∨ common_typos G c return_all = Ok l
  ∨ version_numbers G c = Ok l →
  ∀ t, t ∈ l → admissible G c t.
Proof.
  assert (∀ t, t ∈ @nil string → admissible G c t) as Hnil
    by (intros t Ht; by apply not_elem_of_nil in Ht).
  intros [Hl | [Hl | [Hl | [Hl | [Hl | Hl]]]]] t Ht.
  - by eapply tested_targets_admissible.
  - unfold omitted_chars in Hl. destruct (_ <? _)%nat.
    + injection Hl as <-. by apply Hnil.
    + by eapply tested_targets_admissible.
  - by eapply tested_targets_admissible.
  - unfold swapped_words in Hl. destruct (negb _).
    { injection Hl as <-. by apply Hnil. }
    destruct (_ <? _)%nat.
    + injection Hl as <-. by apply Hnil.
    + by eapply tested_targets_admissible.
  - by eapply tested_targets_admissible.
  - unfold version_numbers in Hl.
    destruct (VERSION_NUMBER_REGEX_match c) as [s|].
    2: { injection Hl as <-. by apply Hnil. }
    destruct (is_target G c s) as [[]|] eqn:Hs; cbn [mbind result_bind] in Hl;
      [| |done].
    + injection Hl as <-. apply list_elem_of_singleton in Ht as ->.
      by apply is_target_true.
    + injection Hl as <-. by apply Hnil.
Qed.

(** X4: every name that one of the six mutators with the test returns is
    admissible: it is in the popular set, it is not the candidate, and
    [same_author] finds no common author; whatever [return_all] is. *)
Theorem tested_mutators_admissible (G : Globals) (c : string)
    (return_all : bool) (l : list string) :
  repeated_characters G c return_all = Ok l
  ∨ omitted_chars G c return_all = Ok l
  ∨ swapped_characters G c return_all = Ok l
  ∨ swapped_words G c return_all = Ok l
  ∨ common_typos G c return_all = Ok l
  ∨ version_numbers G c = Ok l →
  ∀ t, t ∈ l → admissible G c t.
Proof. apply mutator_targets_admissible. Qed.

Lemma tested_mutators_admissible_witness :
  admissible react_corpus "reeact" "react".
Proof.
  apply (tested_mutators_admissible react_corpus "reeact" true ["react"]).
  - left. vm_compute. reflexivity.
  - apply list_elem_of_here.
Defined.

(** X5: with [return_all] false, each of the five mutators with the flag
    returns the empty list when it returns the empty list with [return_all]
    true, and otherwise the singleton of [get_most_popular_package] of that
    list, one of its elements. *)
Theorem tested_mutators_single :
  Forall (λ mutator, ∀ (G : Globals) (c : string) (l : list string),
    mutator G c false = Ok l →
    ∃ targets, mutator G c true = Ok targets
      ∧ ((targets = [] ∧ l = [])
         ∨ ∃ p, l = [p] ∧ p ∈ targets
                ∧ get_most_popular_package G targets = Ok p))
    tested_mutators.
Proof.
  unfold tested_mutators. repeat constructor; intros G c l.
  - apply tested_targets_single.
  - unfold omitted_chars. destruct (_ <? _)%nat.
    + intros [= <-]. exists []. auto.
    + apply tested_targets_single.
  - apply tested_targets_single.
  - unfold swapped_words. destruct (negb _).
    { intros [= <-]. exists []. auto. }
    destruct (_ <? _)%nat.
    + intros [= <-]. exists []. auto.
    + apply tested_targets_single.
  - apply tested_targets_single.
Qed.

(** ** The edit-distance branch of the filter *)

Section LevenshteinProperties.
Context `{External}.
Variable G : Globals.

Lemma levenshtein_targets_lookup (descr : string) (l : list string) :
  ∀ targets m, levenshtein_targets G descr targets l = Ok m →
  ∀ t, m !! t = match (if bool_decide (t ∈ l)
                       then levenshtein_score G descr t else None) with
                | Some s => Some s
                | None => targets !! t
                end.
Proof.
  induction l as [|t0 rest IH]; intros targets m Hm t.
  { cbn in Hm. injection Hm as <-.
    rewrite bool_decide_eq_false_2; [done | apply not_elem_of_nil]. }
  cbn [levenshtein_targets] in Hm. unfold crates_get in Hm.
  destruct (crates G !! t0) as [ct|] eqn:Hct; cbn [mbind result_bind] in Hm;
    [|done].
  destruct (Levenshtein_distance descr (description ct)) as [dist|] eqn:Hdist;
    cbn [mbind result_bind] in Hm; [|done].
  assert (levenshtein_score G descr t0
          = if dist <? levenshtein_threshold (args G)
            then Some (IntScore dist) else None) as Hscore
    by (unfold levenshtein_score; by rewrite Hct, Hdist).
  destruct (dist <? levenshtein_threshold (args G));
    rewrite (IH _ _ Hm t); destruct (decide (t = t0)) as [-> | Hne];
    rewrite ?bool_decide_elem_of_cons_eq, ?Hscore,
      ?bool_decide_elem_of_cons_ne by done.
  - rewrite lookup_insert_eq. by destruct (bool_decide _).
  - by rewrite lookup_insert_ne.
  - by destruct (bool_decide _).
  - done.
Qed.

Lemma levenshtein_targets_Ok (descr : string) (l : list string) :
  ∀ targets,
  Forall (λ t, ∃ ct dist, crates G !! t = Some ct
               ∧ Levenshtein_distance descr (description ct) = Ok dist) l →
  ∃ m, levenshtein_targets G descr targets l = Ok m.
Proof.
  induction l as [|t0 rest IH]; intros targets Hl; [by eexists|].
  apply Forall_cons in Hl as [(ct & dist & Hct & Hdist) Hrest].
  cbn [levenshtein_targets]. unfold crates_get.
  rewrite Hct. cbn [mbind result_bind]. rewrite Hdist. cbn [mbind result_bind].
  destruct (dist <? _); by apply IH.
Qed.

Lemma filter_targets_levenshtein (package descr : string) (l : list string) :
  levenshtein_mode G package descr →
  filter_targets G package l = levenshtein_targets G descr ∅ l.
Proof.
  intros [(cp & Hcp & Hd & Hb)%text_of_Some Hn].
  unfold filter_targets, crates_get. rewrite Hcp. cbn [mbind result_bind].
  rewrite Hd. unfold blank in Hb. by rewrite Hb, Hn.
Qed.

(** X6: in Levenshtein mode (the candidate has a text and the model gives it
    the zero vector), when the distance to the description of every
    potential target is available, the filter returns a dict that holds [t]
    if and only if the distance between the text of the candidate and the
    description of [t], as the dict of crates has it, is strictly under
    [levenshtein_threshold], with that distance as the score. *)
Theorem filter_targets_levenshtein_retains (package descr : string)
    (potential_targets : list string) :
  levenshtein_mode G package descr →
  Forall (λ t, ∃ ct dist, crates G !! t = Some ct
               ∧ Levenshtein_distance descr (description ct) = Ok dist)
    potential_targets →
  ∃ m, filter_targets G package potential_targets = Ok m
       ∧ ∀ t s, m !! t = Some s ↔
                t ∈ potential_targets
                ∧ ∃ ct dist, crates G !! t = Some ct
                    ∧ Levenshtein_distance descr (description ct) = Ok dist
                    ∧ dist < levenshtein_threshold (args G)
                    ∧ s = IntScore dist.
Proof.
  intros Hmode Hl. rewrite (filter_targets_levenshtein _ _ _ Hmode).
  destruct (levenshtein_targets_Ok descr potential_targets ∅ Hl) as [m Hm].
  exists m. split; [done|]. intros t s.
  rewrite (levenshtein_targets_lookup _ _ _ _ Hm t), lookup_empty.
  unfold levenshtein_score. case_bool_decide as Ht.
  2: { split; [done | by intros (? & _)]. }
  destruct (crates G !! t) as [ct|].
  2: { split; [done | by intros (_ & ct & dist & ? & _)]. }
  destruct (Levenshtein_distance descr (description ct)) as [dist|e] eqn:Hd.
  2: { split; [done|]. intros (_ & ct' & dist & [= <-] & Hd' & _).
       congruence. }
  destruct (dist <? levenshtein_threshold (args G)) eqn:Hlt.
  - apply Z.ltb_lt in Hlt. split.
    + intros [= <-]. split; [done|]. by exists ct, dist.
    + intros (_ & ct' & dist' & [= <-] & Hd' & _ & ->). congruence.
  - apply Z.ltb_ge in Hlt. split; [done|].
    intros (_ & ct' & dist' & [= <-] & Hd' & ? & _).
    assert (dist' = dist) by congruence. lia.
Qed.

End LevenshteinProperties.

Lemma filter_targets_levenshtein_retains_witness :
  ∃ m, @filter_targets similar_external levenshtein_corpus "tokoi"
         ["tokio"; "react"] = Ok m
       ∧ ∀ t s, m !! t = Some s ↔
                t ∈ ["tokio"; "react"]
                ∧ ∃ ct dist, crates levenshtein_corpus !! t = Some ct
                    ∧ @Levenshtein_distance similar_external unknown_text
                        (description ct) = Ok dist
                    ∧ dist < levenshtein_threshold (args levenshtein_corpus)
                    ∧ s = IntScore dist.
Proof.
  apply (@filter_targets_levenshtein_retains similar_external).
  - split; reflexivity.
  - repeat constructor; do 2 eexists; split; reflexivity.
Defined.

(** ** The detector *)

Section DetectorProperties.
Context `{External}.
Variable G : Globals.

Lemma blank_targets_keys (l : list string) :
  ∀ targets m, blank_targets G targets l = Ok m →
  ∀ t, is_Some (m !! t) → is_Some (targets !! t) ∨ t ∈ l.
Proof.
  induction l as [|t0 rest IH]; intros targets m; cbn [blank_targets].
  { intros [= <-] t ?. by left. }
  destruct (crates_get G t0) as [ct|]; cbn [mbind result_bind]; [|done].
  destruct (blank (description ct)); intros Hm t Ht;
    destruct (IH _ _ Hm t Ht) as [Hin | Hin];
    try (right; by apply list_elem_of_further); [|by left].
  destruct (decide (t = t0)) as [-> | Hne].
  - right. apply list_elem_of_here.
  - left. by rewrite lookup_insert_ne in Hin.
Qed.

Lemma levenshtein_targets_keys (descr : string) (l : list string) :
  ∀ targets m, levenshtein_targets G descr targets l = Ok m →
  ∀ t, is_Some (m !! t) → is_Some (targets !! t) ∨ t ∈ l.
Proof.
  induction l as [|t0 rest IH]; intros targets m; cbn [levenshtein_targets].
  { intros [= <-] t ?. by left. }
  destruct (crates_get G t0) as [ct|]; cbn [mbind result_bind]; [|done].
  destruct (Levenshtein_distance descr (description ct)) as [dist|];
    cbn [mbind result_bind]; [|done].
  destruct (dist <? _); intros Hm t Ht;
    destruct (IH _ _ Hm t Ht) as [Hin | Hin];
    try (right; by apply list_elem_of_further); [|by left].
  destruct (decide (t = t0)) as [-> | Hne].
  - right. apply list_elem_of_here.
  - left. by rewrite lookup_insert_ne in Hin.
Qed.

Lemma semantic_targets_keys (refdoc : Doc) (l : list string) :
  ∀ targets m, semantic_targets G refdoc targets l = Ok m →
  ∀ t, is_Some (m !! t) → is_Some (targets !! t) ∨ t ∈ l.
Proof.
  induction l as [|t0 rest IH]; intros targets m; cbn [semantic_targets].
  { intros [= <-] t ?. by left. }
  assert (∀ targets', semantic_targets G refdoc targets' rest = Ok m →
    (∀ t, is_Some (targets' !! t) → is_Some (targets !! t) ∨ t = t0) →
    ∀ t, is_Some (m !! t) → is_Some (targets !! t) ∨ t ∈ t0 :: rest)
    as Hstep.
  { intros targets' Hm Hsub t Ht.
    destruct (IH _ _ Hm t Ht) as [Hin | Hin].
    - destruct (Hsub t Hin) as [? | ->]; [by left|].
      right. apply list_elem_of_here.
    - right. by apply list_elem_of_further. }
  destruct (crates_get G t0) as [ct|]; cbn [mbind result_bind]; [|done].
  destruct (description ct) as [d|]; [|intros Hm; apply (Hstep _ Hm); auto].
  destruct (negb _); [|intros Hm; apply (Hstep _ Hm); auto].
  destruct (float_is_zero _); [done|].
  destruct (PrimFloat.ltb _ _); intros Hm; apply (Hstep _ Hm); [|auto].
  intros t Ht. destruct (decide (t = t0)) as [-> | Hne]; [by right|].
  left. by rewrite lookup_insert_ne in Ht.
Qed.

Lemma filter_targets_selects (package : string)
    (potential_targets : list string) (m : gmap string score) :
  filter_targets G package potential_targets = Ok m →
  ∀ t, is_Some (m !! t) → t ∈ potential_targets.
Proof.
  unfold filter_targets.
  destruct (crates_get G package) as [cp|]; cbn [mbind result_bind]; [|done].
  assert (∀ t : string, ¬ is_Some ((∅ : gmap string score) !! t)) as Hempty
    by (intros t; rewrite lookup_empty; by intros [? ?]).
  assert (blank_targets G ∅ potential_targets = Ok m →
          ∀ t, is_Some (m !! t) → t ∈ potential_targets) as Hblank.
  { intros Hm t Ht.
    destruct (blank_targets_keys _ _ _ Hm t Ht) as [?%Hempty | ?]; done. }
  destruct (description cp) as [descr|]; [|done].
  destruct (String.eqb (strip descr) ""); [done|].
  destruct (float_is_zero _); intros Hm t Ht.
  - destruct (levenshtein_targets_keys _ _ _ _ Hm t Ht) as [?%Hempty | ?];
      done.
  - destruct (semantic_targets_keys _ _ _ _ Hm t Ht) as [?%Hempty | ?]; done.
Qed.

(** X7: in each of its three modes the filter only selects: every key of
    the dict it returns is one of the potential targets it was given. *)
Theorem filter_targets_keys (package : string)
    (potential_targets : list string) (m : gmap string score) :
  filter_targets G package potential_targets = Ok m →
  ∀ t, is_Some (m !! t) → t ∈ potential_targets.
Proof. apply filter_targets_selects. Qed.

Lemma raw_targets_origin (c : string) (l : list string) :
  raw_targets G c = Ok l →
  ∀ t, t ∈ l →
  admissible G c t
  ∨ ∃ targets, popular_bitflips G !! c = Some targets ∧ t ∈ targets.
Proof.
  unfold raw_targets.
  destruct (repeated_characters G c true) as [t1|] eqn:H1;
    cbn [mbind result_bind]; [|done].
  destruct (omitted_chars G c true) as [t2|] eqn:H2;
    cbn [mbind result_bind]; [|done].
  destruct (swapped_characters G c true) as [t3|] eqn:H3;
    cbn [mbind result_bind]; [|done].
  destruct (swapped_words G c true) as [t4|] eqn:H4;
    cbn [mbind result_bind]; [|done].
  destruct (common_typos G c true) as [t5|] eqn:H5;
    cbn [mbind result_bind]; [|done].
  destruct (version_numbers G c) as [t6|] eqn:H6;
    cbn [mbind result_bind]; [|done].
  destruct (bitflips G c) as [t7|] eqn:H7; cbn [mbind result_bind]; [|done].
  intros [= <-] t Ht. rewrite !elem_of_app in Ht.
  destruct Ht as [Ht | [Ht | [Ht | [Ht | [Ht | [Ht | Ht]]]]]].
  - left. apply (mutator_targets_admissible G c true t1); auto.
  - left. apply (mutator_targets_admissible G c true t2); auto.
  - left. apply (mutator_targets_admissible G c true t3); auto.
  - left. apply (mutator_targets_admissible G c true t4); auto.
  - left. apply (mutator_targets_admissible G c true t5); auto 10.
  - left. apply (mutator_targets_admissible G c true t6); auto 10.
  - right. unfold bitflips in H7.
    destruct (popular_bitflips G !! c) as [targets|].
    + injection H7 as <-. by exists targets.
    + injection H7 as <-. by apply not_elem_of_nil in Ht.
Qed.

(** X8: when the index is the one that [generate_bitflips] builds from the
    popular set, every target that the detector returns for a candidate is
    in the popular set and is not the candidate, and either [same_author]
    finds no common author or the candidate is a bitflip of the target. *)
Theorem detector_targets_popular (c : string) (targets : Targets) :
  popular_bitflips G = generate_bitflips (popular_package_set G) →
  get_typosquatting_targets G c = Ok targets →
  ∀ t, t ∈ target_names targets →
  t ∈ popular_package_set G ∧ t ≠ c
  ∧ (same_author G c t = Ok false ∨ c ∈ blips t).
Proof.
  intros Hindex. unfold get_typosquatting_targets.
  case_bool_decide as Hpopular.
  { intros [= <-] t Ht. cbn in Ht. set_solver. }
  destruct (allowlisted G c) as [[]|]; cbn [mbind result_bind]; [| |done].
  { intros [= <-] t Ht. cbn in Ht. set_solver. }
  destruct (raw_targets G c) as [raw|] eqn:Hraw; cbn [mbind result_bind];
    [|done].
  destruct (filter_targets G c (list_set raw)) as [d|] eqn:Hd;
    cbn [mbind result_bind]; [|done].
  intros [= <-] t Ht. cbn [target_names] in Ht. apply elem_of_dom in Ht.
  apply (filter_targets_selects _ _ _ Hd) in Ht. unfold list_set in Ht.
  apply elem_of_elements, elem_of_list_to_set in Ht.
  destruct (raw_targets_origin _ _ Hraw t Ht)
    as [(? & ? & ?) | (l & Hl & Htl)]; [by auto|].
  rewrite Hindex in Hl.
  apply generate_bitflips_lookup in Hl as (_ & _ & Hl).
  apply Hl in Htl as [? ?]. split; [done|]. split; [congruence | by right].
Qed.

(** X9: for a candidate that [allowlisted] accepts, the detector returns
    the empty list, and no alert of the run is about it. *)
Theorem allowlisted_never_suspect (c : string) :
  allowlisted G c = Ok true →
  get_typosquatting_targets G c = Ok (TargetList [])
  ∧ ∀ a, a ∈ (main G).1 → alert_crate a ≠ c.
Proof.
  intros Hc.
  assert (get_typosquatting_targets G c = Ok (TargetList [])) as Hget.
  { unfold get_typosquatting_targets. rewrite Hc. by case_bool_decide. }
  split; [done|]. intros a Ha Heq. rewrite main_alerts in Ha.
  apply main_loop_alert in Ha as [Ha | (_ & Ht & Hlen)].
  - by apply not_elem_of_nil in Ha.
  - rewrite Heq, Hget in Ht. injection Ht as Ht. rewrite <- Ht in Hlen. done.
Qed.

End DetectorProperties.

Lemma filter_targets_keys_witness : "react" ∈ ["react"; "lodash"; "serde"].
Proof.
  apply (@filter_targets_keys similar_external filter_corpus "reeact"
           ["react"; "lodash"; "serde"] {[ "react" := FloatScore 1 ]}).
  - vm_compute. reflexivity.
  - exists (FloatScore 1). vm_compute. reflexivity.
Defined.

Lemma detector_targets_popular_witness :
  "react" ∈ popular_package_set bitflip_corpus ∧ "react" ≠ "seact"
  ∧ (same_author bitflip_corpus "seact" "react" = Ok false
     ∨ "seact" ∈ blips "react").
Proof.
  apply (@detector_targets_popular similar_external bitflip_corpus "seact"
           (TargetDict {[ "react" := FloatScore 1 ]})).
  - reflexivity.
  - vm_compute. reflexivity.
  - by_evaluation.
Defined.

Lemma allowlisted_never_suspect_witness :
  @get_typosquatting_targets similar_external allowlist_corpus "reeact"
  = Ok (TargetList [])
  ∧ ∀ a, a ∈ (@main similar_external allowlist_corpus).1 →
         alert_crate a ≠ "reeact".
Proof.
  apply (@allowlisted_never_suspect similar_external allowlist_corpus).
  vm_compute. reflexivity.
Defined.

(** ** The run *)

Section RunProperties.
Context `{External}.
Variable G : Globals.

(** The loop started with lines already printed and a count prints the same
    lines after them and adds the same number to the count. *)
Lemma main_loop_shift (names : list string) :
  ∀ printed n,
  main_loop G names printed n
  = (printed ++ (main_loop G names [] 0).1,
     k ← (main_loop G names [] 0).2; Ok (n + k)).
Proof.
  induction names as [|c rest IH]; intros printed n; cbn [main_loop].
  { cbn. by rewrite app_nil_r, Z.add_0_r. }
  destruct (get_typosquatting_targets G c) as [targets|e].
  2: { cbn. by rewrite app_nil_r. }
  destruct (targets_len targets =? 0)%nat; [apply IH|].
  destruct (download_latest c) as [localfile|e].
  2: { cbn. by rewrite app_nil_r. }
  destruct (crates_get G c) as [pkg|e].
  2: { cbn. by rewrite app_nil_r. }
  rewrite IH. rewrite (IH ([] ++ _) (0 + 1)). cbn [fst snd app].
  rewrite <- app_assoc. f_equal.
  destruct (main_loop G rest [] 0).2; cbn [mbind result_bind]; [|done].
  f_equal. lia.
Qed.

Lemma main_loop_cons (c : string) (rest : list string) :
  main_loop G (c :: rest) [] 0
  = match crate_outcome G c with
    | NoAlert => main_loop G rest [] 0
    | PrintAlert a =>
        (a :: (main_loop G rest [] 0).1,
         k ← (main_loop G rest [] 0).2; Ok (1 + k))
    | Abort e => ([], Raise e)
    end.
Proof.
  cbn [main_loop]. unfold crate_outcome.
  destruct (get_typosquatting_targets G c) as [targets|e]; [|done].
  destruct (targets_len targets =? 0)%nat; [done|].
  destruct (download_latest c) as [localfile|e]; [|done].
  destruct (crates_get G c) as [pkg|e]; [|done].
  by rewrite main_loop_shift.
Qed.

Lemma main_status :
  (main G).2
  = (found ← (main_loop G (sorted_crates G) [] 0).2;
     Ok (if 0 <? found then 42 else 0)).
Proof. unfold main. by destruct (main_loop G (sorted_crates G) [] 0). Qed.

Lemma main_loop_count (names : list string) (k : Z) :
  (main_loop G names [] 0).2 = Ok k →
  k = Z.of_nat (length (main_loop G names [] 0).1).
Proof.
  revert k. induction names as [|c rest IH]; intros k.
  { cbn. by intros [= <-]. }
  rewrite main_loop_cons. destruct (crate_outcome G c) as [|a|e].
  - apply IH.
  - cbn [fst snd]. destruct (main_loop G rest [] 0).2 as [k'|];
      cbn [mbind result_bind]; [|done].
    intros [= <-]. rewrite (IH k' eq_refl). cbn [length]. lia.
  - done.
Qed.

(** X10: a run that ends without an exception has the exit status 42 when
    it printed an alert and 0 when it printed none. *)
Theorem main_exit_status (status : Z) :
  (main G).2 = Ok status →
  status = if (length (main G).1 =? 0)%nat then 0 else 42.
Proof.
  rewrite main_status, main_alerts.
  destruct (main_loop G (sorted_crates G) [] 0).2 as [found|] eqn:Hfound;
    cbn [mbind result_bind]; [|done].
  intros [= <-]. apply main_loop_count in Hfound. rewrite Hfound.
  destruct (main_loop G (sorted_crates G) [] 0).1; done.
Qed.

Lemma main_loop_alerts_complete (names : list string) (k : Z) :
  (main_loop G names [] 0).2 = Ok k →
  ∀ c targets, c ∈ names → get_typosquatting_targets G c = Ok targets →
  targets_len targets ≠ 0%nat →
  c ∈ map alert_crate (main_loop G names [] 0).1.
Proof.
  revert k. induction names as [|c0 rest IH]; intros k Hk c targets Hc Ht Hlen.
  { by apply not_elem_of_nil in Hc. }
  rewrite main_loop_cons in Hk |- *.
  assert (c = c0 → ∃ a, crate_outcome G c0 = PrintAlert a
                        ∧ alert_crate a = c0) as Hhere.
  { intros ->. unfold crate_outcome in Hk |- *. rewrite Ht in Hk |- *.
    apply Nat.eqb_neq in Hlen. rewrite Hlen in Hk |- *.
    destruct (download_latest c0); [|done].
    destruct (crates_get G c0); [|done]. by eexists. }
  destruct (crate_outcome G c0) as [|a|e] eqn:Hout.
  - apply elem_of_cons in Hc as [Heq | Hc]; [|by eapply IH].
    by destruct (Hhere Heq) as (? & ? & _).
  - cbn [fst snd map] in Hk |- *.
    apply elem_of_cons in Hc as [Heq | Hc].
    + destruct (Hhere Heq) as (a' & [= <-] & Ha). rewrite Ha, Heq.
      apply list_elem_of_here.
    + apply list_elem_of_further.
      destruct (main_loop G rest [] 0).2 as [k'|] eqn:Hk'; [|done].
      by eapply IH.
  - done.
Qed.

(** X11: in a run that ends without an exception, the crates with an alert
    are exactly the keys of [crates] for which the detector returns a
    non-empty collection of targets. *)
Theorem main_alerts_complete (status : Z) :
  (main G).2 = Ok status →
  ∀ c, c ∈ map alert_crate (main G).1 ↔
       c ∈ dom (crates G)
       ∧ ∃ targets, get_typosquatting_targets G c = Ok targets
                    ∧ targets_len targets ≠ 0%nat.
Proof.
  rewrite main_status, main_alerts. intros Hstatus c.
  destruct (main_loop G (sorted_crates G) [] 0).2 as [k|] eqn:Hk; [|done].
  split.
  - intros (a & -> & Ha)%list_elem_of_fmap.
    apply main_loop_alert in Ha as [Ha | (Hc & Ht & Hlen)].
    + by apply not_elem_of_nil in Ha.
    + split; [by apply sorted_crates_keys | eauto].
  - intros (Hc%sorted_crates_keys & targets & Ht & Hlen).
    by eapply main_loop_alerts_complete.
Qed.

Lemma main_loop_alert_content (names : list string) (a : Alert) :
  a ∈ (main_loop G names [] 0).1 →
  crate_outcome G (alert_crate a) = PrintAlert a.
Proof.
  induction names as [|c rest IH]; [by intros ?%not_elem_of_nil|].
  rewrite main_loop_cons.
  destruct (crate_outcome G c) as [|a'|e] eqn:Hout; [done | |].
  - cbn [fst]. intros [-> | Ha]%elem_of_cons; [|by apply IH].
    assert (alert_crate a' = c) as ->; [|done].
    unfold crate_outcome in Hout.
    destruct (get_typosquatting_targets G c); [|done].
    destruct (_ =? _)%nat; [done|]. destruct (download_latest c); [|done].
    destruct (crates_get G c); [|done]. by injection Hout as <-.
  - by intros ?%not_elem_of_nil.
Qed.

(** X12: an alert of the run holds what the detector returned for its
    crate, which is not empty, the [downloads] of the crate, and the file
    that [download_latest] returned for it, or the text
    [no versions available] when it returned [None]. *)
Theorem main_alert_content (a : Alert) :
  a ∈ (main G).1 →
  get_typosquatting_targets G (alert_crate a) = Ok (alert_targets a)
  ∧ targets_len (alert_targets a) ≠ 0%nat
  ∧ ∃ pkg localfile,
      crates G !! alert_crate a = Some pkg
      ∧ alert_downloads a = downloads pkg
      ∧ download_latest (alert_crate a) = Ok localfile
      ∧ alert_file a = default "no versions available" localfile.
Proof.
  rewrite main_alerts. intros Ha%main_loop_alert_content.
  unfold crate_outcome, crates_get in Ha.
  destruct (get_typosquatting_targets G (alert_crate a)) as [targets|];
    [|done].
  destruct (targets_len targets =? 0)%nat eqn:Hlen; [done|].
  destruct (download_latest (alert_crate a)) as [localfile|]; [|done].
  destruct (crates G !! alert_crate a) as [pkg|]; [|done].
  injection Ha as Ha. rewrite <- Ha. cbn.
  split; [done|]. split; [by apply Nat.eqb_neq|]. by exists pkg, localfile.
Qed.

Lemma main_loop_abort (names : list string) (e : exn) :
  (main_loop G names [] 0).2 = Raise e →
  ∃ before c after,
    names = before ++ c :: after
    ∧ crate_outcome G c = Abort e
    ∧ (main_loop G names [] 0).1 = (main_loop G before [] 0).1
    ∧ ∃ k, (main_loop G before [] 0).2 = Ok k.
Proof.
  induction names as [|c rest IH]; [done|].
  rewrite main_loop_cons. destruct (crate_outcome G c) as [|a|e'] eqn:Hout.
  - intros (before & c' & after & -> & Hc' & Halerts & k & Hk)%IH.
    exists (c :: before), c', after. rewrite main_loop_cons, Hout. eauto.
  - cbn [fst snd].
    destruct (main_loop G rest [] 0).2 as [k'|] eqn:Hk';
      cbn [mbind result_bind]; [done|].
    intros [= ->].
    destruct (IH eq_refl) as (before & c' & after & -> & Hc' & Halerts & k & Hk).
    exists (c :: before), c', after. rewrite main_loop_cons, Hout.
    cbn [fst snd]. rewrite Hk, Halerts. cbn [mbind result_bind]. eauto.
  - intros [= ->]. exists [], c, rest. cbn. eauto.
Qed.

(** X13: when the run ends with an exception, it is the exception of the
    detector for some crate, or the exception of [download_latest] for a
    crate with targets: a failed download is not caught.  No alert is
    printed for that crate nor for the crates after it in the order, and
    the alerts printed are the ones of a run over the crates before it. *)
Theorem main_abort (e : exn) :
  (main G).2 = Raise e →
  ∃ before c after,
    sorted_crates G = before ++ c :: after
    ∧ (get_typosquatting_targets G c = Raise e
       ∨ ∃ targets, get_typosquatting_targets G c = Ok targets
                    ∧ targets_len targets ≠ 0%nat
                    ∧ download_latest c = Raise e)
    ∧ (main G).1 = (main_loop G before [] 0).1
    ∧ (∃ k, (main_loop G before [] 0).2 = Ok k)
    ∧ ∀ a, a ∈ (main G).1 → alert_crate a ∈ before.
Proof.
  rewrite main_status, main_alerts.
  destruct (main_loop G (sorted_crates G) [] 0).2 as [k|e'] eqn:Hk; [done|].
  intros [= ->].
  destruct (main_loop_abort _ _ Hk)
    as (before & c & after & Hnames & Hc & Halerts & Hbefore).
  exists before, c, after. split; [done|]. split; [|split; [done|split; [done|]]].
  - assert (c ∈ dom (crates G)) as [pkg Hpkg]%elem_of_dom.
    { apply sorted_crates_keys. rewrite Hnames.
      apply elem_of_app. right. apply list_elem_of_here. }
    unfold crate_outcome, crates_get in Hc. rewrite Hpkg in Hc.
    destruct (get_typosquatting_targets G c) as [targets|e'];
      [|left; congruence].
    destruct (targets_len targets =? 0)%nat eqn:Hlen; [done|].
    destruct (download_latest c) as [localfile|e']; [done|].
    right. exists targets. apply Nat.eqb_neq in Hlen.
    repeat split; [done | congruence].
  - intros a Ha. rewrite Halerts in Ha.
    apply main_loop_alert in Ha as [Ha | (? & _)]; [|done].
    by apply not_elem_of_nil in Ha.
Qed.

End RunProperties.

Lemma main_exit_status_witness :
  42 = if (length (@main similar_external bitflip_corpus).1 =? 0)%nat
       then 0 else 42.
Proof.
  apply (@main_exit_status similar_external bitflip_corpus).
  vm_compute. reflexivity.
Defined.

Lemma main_alerts_complete_witness :
  "seact" ∈ map alert_crate (@main similar_external bitflip_corpus).1 ↔
  "seact" ∈ dom (crates bitflip_corpus)
  ∧ ∃ targets,
      @get_typosquatting_targets similar_external bitflip_corpus "seact"
      = Ok targets
      ∧ targets_len targets ≠ 0%nat.
Proof.
  apply (@main_alerts_complete similar_external bitflip_corpus 42).
  vm_compute. reflexivity.
Defined.

(** With a downloader that fails, the run on [bitflip_corpus] stops at
    [reeact], the first crate with targets, and prints nothing. *)
Lemma main_abort_witness :
  ∃ before c after,
    sorted_crates bitflip_corpus = before ++ c :: after
    ∧ (@get_typosquatting_targets offline_external bitflip_corpus c
       = Raise RuntimeError
       ∨ ∃ targets,
           @get_typosquatting_targets offline_external bitflip_corpus c
           = Ok targets
           ∧ targets_len targets ≠ 0%nat
           ∧ @download_latest offline_external c = Raise RuntimeError)
    ∧ (@main offline_external bitflip_corpus).1
      = (@main_loop offline_external bitflip_corpus before [] 0).1
    ∧ (∃ k, (@main_loop offline_external bitflip_corpus before [] 0).2
            = Ok k)
    ∧ ∀ a, a ∈ (@main offline_external bitflip_corpus).1 →
           alert_crate a ∈ before.
Proof.
  apply (@main_abort offline_external bitflip_corpus RuntimeError).
  vm_compute. reflexivity.
Defined.

Lemma main_alert_content_witness :
  @get_typosquatting_targets similar_external bitflip_corpus
    (alert_crate seact_alert) = Ok (alert_targets seact_alert)
  ∧ targets_len (alert_targets seact_alert) ≠ 0%nat
  ∧ ∃ pkg localfile,
      crates bitflip_corpus !! alert_crate seact_alert = Some pkg
      ∧ alert_downloads seact_alert = downloads pkg
      ∧ @download_latest similar_external (alert_crate seact_alert)
        = Ok localfile
      ∧ alert_file seact_alert = default "no versions available" localfile.
Proof.
  apply (@main_alert_content similar_external bitflip_corpus).
  apply (list_elem_of_lookup_2 _ 1%nat). vm_compute. reflexivity.
Defined.

(** ** The fatal error of the filter *)

Section FatalError.
Context `{External}.
Variable G : Globals.

Lemma main_loop_raises (names : list string) (c : string) (e : exn) :
  c ∈ names → crate_outcome G c = Abort e →
  ∃ e', (main_loop G names [] 0).2 = Raise e'.
Proof.
  induction names as [|c0 rest IH]; intros Hc Hout.
  { by apply not_elem_of_nil in Hc. }
  rewrite main_loop_cons.
  destruct (crate_outcome G c0) as [|a|e0] eqn:Hout0.
  - apply elem_of_cons in Hc as [-> | Hc]; [congruence | by apply IH].
  - cbn [snd]. apply elem_of_cons in Hc as [-> | Hc]; [congruence|].
    destruct (IH Hc Hout) as [e' ->]. by exists e'.
  - by exists e0.
Qed.

(** An exception of the detector for a crate of the corpus ends the run:
    nothing catches it. *)
Lemma detector_exception_aborts (c : string) (e : exn) :
  c ∈ dom (crates G) → get_typosquatting_targets G c = Raise e →
  (∃ e', (main G).2 = Raise e')
  ∧ ∀ a, a ∈ (main G).1 → alert_crate a ≠ c.
Proof.
  intros Hc Hget. split.
  - rewrite main_status.
    destruct (main_loop_raises (sorted_crates G) c e) as [e' ->].
    + by apply sorted_crates_keys.
    + unfold crate_outcome. by rewrite Hget.
    + by exists e'.
  - intros a Ha Heq. rewrite main_alerts in Ha.
    apply main_loop_alert in Ha as [Ha | (_ & Ht & _)].
    + by apply not_elem_of_nil in Ha.
    + rewrite Heq, Hget in Ht. done.
Qed.

(** An exception of the filter is the exception of the detector. *)
Lemma filter_exception_detector (c : string) (raw : list string) (e : exn) :
  c ∉ popular_package_set G → allowlisted G c = Ok false →
  raw_targets G c = Ok raw →
  filter_targets G c (list_set raw) = Raise e →
  c ∈ dom (crates G) ∧ get_typosquatting_targets G c = Raise e.
Proof.
  intros Hc Ha Hraw Hfilter. split.
  - unfold allowlisted, crates_get in Ha.
    destruct (crates G !! c) as [cp|] eqn:Hcp; [|done].
    apply elem_of_dom. by exists cp.
  - unfold get_typosquatting_targets. rewrite bool_decide_eq_false_2 by done.
    rewrite Ha. cbn [mbind result_bind]. rewrite Hraw.
    cbn [mbind result_bind]. by rewrite Hfilter.
Qed.

(** C5: in semantic mode, when some potential target has a text that the
    model gives the zero vector, the filter raises the [ValueError] about
    such a target instead of returning a dict, and it returns a dict when
    there is no such target; as the edit distance does not raise this
    error, the filter raises it in semantic mode only, about a potential
    target with a text of zero norm.  The error is fatal: when the filter
    raises for the targets that the mutators found for a candidate, the
    detector raises the same exception; and an exception of the detector
    for a crate of the corpus ends the run with an exception, without an
    alert for that crate. *)
Theorem filter_targets_zero_norm_fatal (package : string)
    (potential_targets : list string) :
  Forall (λ t, t ∈ dom (crates G)) potential_targets →
  (∀ descr, semantic_mode G package descr →
     (existsb (zero_norm_target G) potential_targets = true →
      ∃ t d, filter_targets G package potential_targets
             = Raise (ValueError t d)
             ∧ t ∈ potential_targets ∧ text_of G t = Some d
             ∧ float_is_zero (vector_norm (nlp d)) = true)
     ∧ (existsb (zero_norm_target G) potential_targets = false →
        ∃ m, filter_targets G package potential_targets = Ok m))
  ∧ ((∀ a b t d, Levenshtein_distance a b ≠ Raise (ValueError t d)) →
     ∀ t d, filter_targets G package potential_targets
            = Raise (ValueError t d) →
            ∃ descr, semantic_mode G package descr
                     ∧ t ∈ potential_targets ∧ text_of G t = Some d
                     ∧ float_is_zero (vector_norm (nlp d)) = true)
  ∧ (∀ raw e,
       package ∉ popular_package_set G → allowlisted G package = Ok false →
       raw_targets G package = Ok raw → potential_targets = list_set raw →
       filter_targets G package potential_targets = Raise e →
       get_typosquatting_targets G package = Raise e
       ∧ (∃ e', (main G).2 = Raise e')
       ∧ ∀ a, a ∈ (main G).1 → alert_crate a ≠ package)
  ∧ (∀ c e, c ∈ dom (crates G) → get_typosquatting_targets G c = Raise e →
       (∃ e', (main G).2 = Raise e')
       ∧ ∀ a, a ∈ (main G).1 → alert_crate a ≠ c).
Proof.
  intros Hl.
  destruct (filter_targets_zero_norm_raises G package potential_targets Hl)
    as [Hif Honly].
  split; [done|]. split; [done|]. split.
  - intros raw e Hpopular Hallow Hraw -> Hfilter.
    destruct (filter_exception_detector _ _ _ Hpopular Hallow Hraw Hfilter)
      as [Hc Hget].
    split; [done|]. by eapply detector_exception_aborts.
  - apply detector_exception_aborts.
Qed.

End FatalError.

Lemma filter_targets_zero_norm_fatal_witness :
  (∃ t d, @filter_targets similar_external zero_norm_corpus "tokoi" ["tokio"]
          = Raise (ValueError t d)
          ∧ t ∈ ["tokio"] ∧ text_of zero_norm_corpus t = Some d
          ∧ float_is_zero (@vector_norm similar_external d) = true)
  ∧ @get_typosquatting_targets similar_external zero_norm_corpus "tokoi"
    = Raise (ValueError "tokio" unknown_text)
  ∧ (∃ e', (@main similar_external zero_norm_corpus).2 = Raise e')
  ∧ ∀ a, a ∈ (@main similar_external zero_norm_corpus).1 →
         alert_crate a ≠ "tokoi".
Proof.
  destruct (@filter_targets_zero_norm_fatal similar_external zero_norm_corpus
              "tokoi" ["tokio"]) as (Hif & _ & Hchain & _).
  { repeat constructor; by_evaluation. }
  split.
  - destruct (Hif "a view library") as [Hraise _]; [split; reflexivity|].
    apply Hraise. reflexivity.
  - apply (Hchain ["tokio"]).
    + by_evaluation.
    + vm_compute. reflexivity.
    + vm_compute. reflexivity.
    + vm_compute. reflexivity.
    + vm_compute. reflexivity.
Defined.

(** The run on [zero_norm_corpus] prints nothing and ends with the
    exception. *)
Example main_zero_norm_corpus :
  @main similar_external zero_norm_corpus
  = ([], Raise (ValueError "tokio" unknown_text)).
Proof. vm_compute. reflexivity. Qed.

(** ** What the bitflip index holds *)

(** X14: in the index that [generate_bitflips] builds from a popular set,
    every key is accepted by [CRATE_NAME_REGEX] and has a non-empty list,
    which holds exactly the popular names that have the key among their
    [blips]; and every blip of a popular name is a key. *)
Theorem bitflip_index_entries (P : gset string) :
  (∀ k l, generate_bitflips P !! k = Some l →
     l ≠ [] ∧ CRATE_NAME_REGEX_search k = true
     ∧ ∀ p, p ∈ l ↔ p ∈ P ∧ k ∈ blips p)
  ∧ (∀ p k, p ∈ P → k ∈ blips p → is_Some (generate_bitflips P !! k)).
Proof.
  split; [apply generate_bitflips_lookup|].
  intros p k Hp Hk.
  destruct (generate_bitflips_has P p k Hp Hk) as (l & Hl & _). by exists l.
Qed.

(** X15: with that index, [bitflips] returns exactly the popular names that
    have the candidate among their [blips], and never raises; the owners of
    the crates play no part. *)
Theorem bitflips_lookup (G : Globals) (c : string) :
  popular_bitflips G = generate_bitflips (popular_package_set G) →
  ∃ l, bitflips G c = Ok l
       ∧ ∀ t, t ∈ l ↔ t ∈ popular_package_set G ∧ c ∈ blips t.
Proof.
  intros Hindex. unfold bitflips. rewrite Hindex.
  destruct (generate_bitflips (popular_package_set G) !! c) as [l|] eqn:Hl.
  - exists l. split; [done|].
    by apply generate_bitflips_lookup in Hl as (_ & _ & ?).
  - exists []. split; [done|]. intros t. split.
    + by intros ?%not_elem_of_nil.
    + intros [Ht Hc].
      destruct (generate_bitflips_has _ t c Ht Hc) as (l & Hl' & _).
      congruence.
Qed.

Lemma bitflips_lookup_witness :
  ∃ l, bitflips bitflip_corpus "seact" = Ok l
       ∧ ∀ t, t ∈ l ↔ t ∈ popular_package_set bitflip_corpus
                       ∧ "seact" ∈ blips t.
Proof. apply bitflips_lookup. reflexivity. Defined.

(** ** The pattern of crate names *)

Lemma more_name_chars_end_spec (s : string) :
  more_name_chars_end s = true ↔
  string_forallb is_name_char s = true
  ∨ ∃ n, string_forallb is_name_char n = true ∧ s = n +:+ String newline "".
Proof.
  induction s as [|c s IH]; cbn [more_name_chars_end string_forallb].
  { split; [by left | done]. }
  rewrite orb_true_iff, andb_true_iff, IH. split.
  - intros [[Hc [Hs | (n & Hn & ->)]] | He].
    + left. by rewrite Hc, Hs.
    + right. exists (String c n). cbn. by rewrite Hc, Hn.
    + right. exists "". destruct s; [|done].
      cbn in He. apply Ascii.eqb_eq in He as ->. done.
  - intros [[Hc Hs]%andb_true_iff | (n & Hn & Heq)].
    + left. auto.
    + destruct n as [|c' n]; cbn in Heq.
      * injection Heq as -> ->. by right.
      * injection Heq as <- ->. cbn in Hn.
        apply andb_true_iff in Hn as [Hc Hn]. left. split; [done|].
        right. by exists n.
Qed.

(** X16: [CRATE_NAME_REGEX.search] accepts the non-empty strings over
    [[A-Za-z0-9_-]] and these strings followed by one newline, and nothing
    else. *)
Theorem CRATE_NAME_REGEX_search_accepts (s : string) :
  CRATE_NAME_REGEX_search s = true ↔
  valid_crate_name s = true
  ∨ ∃ n, valid_crate_name n = true ∧ s = n +:+ String newline "".
Proof.
  unfold valid_crate_name. destruct s as [|c s]; cbn.
  { split; [done|]. intros [? | (n & Hn & Heq)]; [done|]. by destruct n. }
  rewrite andb_true_iff, more_name_chars_end_spec. split.
  - intros [Hc [Hs | (n & Hn & ->)]].
    + left. by rewrite Hc, Hs.
    + right. exists (String c n). cbn. by rewrite Hc, Hn.
  - intros [[Hc Hs]%andb_true_iff | (n & Hn & Heq)].
    + auto.
    + destruct n as [|c' n]; [done|]. cbn in Heq, Hn.
      injection Heq as <- ->. apply andb_true_iff in Hn as [Hc Hn].
      split; [done|]. right. by exists n.
Qed.

(** ** Blank descriptions *)

Lemma lstrip_whitespace (s : string) :
  string_forallb py_isspace (lstrip s) = string_forallb py_isspace s.
Proof.
  induction s as [|c s IH]; [done|]. cbn [lstrip].
  destruct (py_isspace c) eqn:Hc; cbn [string_forallb]; by rewrite Hc.
Qed.

Lemma rstrip_empty (s : string) :
  rstrip s = "" ↔ string_forallb py_isspace s = true.
Proof.
  induction s as [|c s IH]; [done|]. cbn [rstrip string_forallb].
  rewrite andb_true_iff, <- IH.
  destruct (rstrip s); destruct (py_isspace c); unfold char_str;
    split; try done; by intros [? ?].
Qed.

(** X17: the filter takes a description for blank exactly when it is
    [None] or all its characters are whitespace for [str.strip]; the empty
    string is one of these. *)
Theorem blank_whitespace_only (d : option string) :
  blank d = true ↔
  d = None ∨ ∃ s, d = Some s ∧ string_forallb py_isspace s = true.
Proof.
  destruct d as [s|]; cbn [blank]; [|by split; [left|]].
  unfold strip. rewrite String.eqb_eq, rstrip_empty, lstrip_whitespace.
  split.
  - intros Hs. right. by exists s.
  - by intros [? | (s' & [= <-] & ?)].
Qed.

(** ** Slices *)

Lemma length_append (a b : string) :
  String.length (a +:+ b) = (String.length a + String.length b)%nat.
Proof. induction a as [|c a IH]; simpl; [done | by rewrite IH]. Qed.

Lemma slice_to_append (a b : string) :
  slice_to (String.length a) (a +:+ b) = a.
Proof. induction a as [|c a IH]; simpl; [by destruct b | by rewrite IH]. Qed.

Lemma slice_from_append (a b : string) :
  slice_from (String.length a) (a +:+ b) = b.
Proof. induction a as [|c a IH]; simpl; [by destruct b | done]. Qed.

Lemma get_append (a : string) (x : ascii) (b : string) :
  String.get (String.length a) (a +:+ String x b) = Some x.
Proof. induction a as [|c a IH]; simpl; done. Qed.

Lemma get_split (i : nat) (s : string) (x : ascii) :
  String.get i s = Some x →
  ∃ a b, s = a +:+ String x b ∧ String.length a = i.
Proof.
  revert i. induction s as [|c s IH]; intros i; [done|].
  destruct i as [|i]; simpl.
  - intros [= ->]. by exists "", s.
  - intros (a & b & -> & <-)%IH. by exists (String c a), b.
Qed.

Lemma get_split_pair (i : nat) (s : string) (x y : ascii) :
  String.get i s = Some x → String.get (i + 1) s = Some y →
  ∃ a b, s = a +:+ String x (String y b) ∧ String.length a = i.
Proof.
  intros (a & b & -> & <-)%get_split Hy.
  replace (String.length a + 1)%nat
    with (String.length (a +:+ String x "")) in Hy
    by (rewrite length_append; simpl; lia).
  assert (a +:+ String x b = (a +:+ String x "") +:+ b) as Heq
    by (by rewrite append_assoc).
  rewrite Heq in Hy. destruct b as [|y' b].
  - rewrite append_nil_r in Hy.
    assert (∀ s, String.get (String.length s) s = None) as Hnone
      by (intros s; induction s; simpl; done).
    by rewrite Hnone in Hy.
  - rewrite get_append in Hy. injection Hy as ->. by exists a, b.
Qed.

Lemma elem_of_flat_map {A B} (f : A → list B) (l : list A) (y : B) :
  y ∈ flat_map f l ↔ ∃ x, x ∈ l ∧ y ∈ f x.
Proof.
  rewrite list_elem_of_In, in_flat_map. split.
  - intros (x & ? & ?). exists x. by rewrite !list_elem_of_In.
  - intros (x & ? & ?). exists x. by rewrite <- !list_elem_of_In.
Qed.

Lemma elem_of_indices (i n : nat) : i ∈ indices n ↔ (i < n)%nat.
Proof. unfold indices. rewrite list_elem_of_In, in_seq. lia. Qed.

(** [ALLOWED_CHARACTERS] holds exactly the characters of the class of
    [CRATE_NAME_REGEX]. *)
Lemma allowed_characters_class (c : ascii) :
  is_name_char c
  = list_inb c (String.list_ascii_of_string ALLOWED_CHARACTERS).
Proof. destruct c as [[] [] [] [] [] [] [] []]; vm_compute; reflexivity. Qed.

Lemma elem_of_allowed_characters (c : ascii) :
  is_name_char c = true →
  c ∈ String.list_ascii_of_string ALLOWED_CHARACTERS.
Proof.
  rewrite allowed_characters_class. unfold list_inb.
  intros (x & Hx & ->%Ascii.eqb_eq)%existsb_exists.
  by apply list_elem_of_In.
Qed.

Lemma slice_from_append_1 (a : string) (x : ascii) (b : string) :
  slice_from (String.length a + 1) (a +:+ String x b) = b.
Proof. induction a as [|c a IH]; simpl; done. Qed.

Lemma slice_from_append_2 (a : string) (x y : ascii) (b : string) :
  slice_from (String.length a + 2) (a +:+ String x (String y b)) = b.
Proof. induction a as [|c a IH]; simpl; done. Qed.

Lemma get_append_1 (a : string) (x y : ascii) (b : string) :
  String.get (String.length a + 1) (a +:+ String x (String y b)) = Some y.
Proof. induction a as [|c a IH]; simpl; done. Qed.

(** ** The names that the mutators try *)

(** The names of the loop of [omitted_chars] undo the removal of a doubled
    character. *)
Lemma repeated_characters_names_insert (c s : string) :
  s ∈ repeated_characters_names c →
  String.length c = S (String.length s)
  ∧ ∃ a x b, c = a +:+ String x (String x b) ∧ s = a +:+ String x b
             ∧ (is_name_char x = true → c ∈ omitted_chars_names s).
Proof.
  unfold repeated_characters_names.
  intros (i & _ & Hs)%elem_of_flat_map.
  destruct (String.get i c) as [x|] eqn:Hx; [|by apply not_elem_of_nil in Hs].
  destruct (String.get (i + 1) c) as [y|] eqn:Hy;
    [|by apply not_elem_of_nil in Hs].
  destruct (Ascii.eqb y x) eqn:Hyx; [|by apply not_elem_of_nil in Hs].
  apply Ascii.eqb_eq in Hyx as ->. apply list_elem_of_singleton in Hs as ->.
  destruct (get_split_pair _ _ _ _ Hx Hy) as (a & b & -> & <-).
  rewrite slice_to_append, slice_from_append_1. split.
  { rewrite !length_append. simpl. lia. }
  exists a, x, b. split; [done|]. split; [done|]. intros Hallowed.
  unfold omitted_chars_names. apply elem_of_flat_map.
  exists (String.length a). split.
  { apply elem_of_indices. rewrite length_append. lia. }
  apply list_elem_of_fmap. exists x.
  split; [|by apply elem_of_allowed_characters].
  by rewrite slice_to_append, slice_from_append.
Qed.

(** X18: a name [s] that [repeated_characters] tries for [c] is [c] with one
    of two equal adjacent characters removed, so it is one character
    shorter.  In the other direction [omitted_chars] undoes it, but for its
    guard: for the candidate [s] it returns the empty list when [s] has less
    than 4 characters, and otherwise, when [c] is over the alphabet of crate
    names and is an admissible target for [s], the list it returns holds
    [c]. *)
Theorem repeated_characters_names_inverse (G : Globals) (c s : string) :
  s ∈ repeated_characters_names c →
  String.length c = S (String.length s)
  ∧ (∃ a x b, c = a +:+ String x (String x b) ∧ s = a +:+ String x b)
  ∧ ((String.length s < 4)%nat → omitted_chars G s true = Ok [])
  ∧ (string_forallb is_name_char c = true → (4 ≤ String.length s)%nat →
     admissible G s c →
     ∀ l, omitted_chars G s true = Ok l → c ∈ l).
Proof.
  intros (Hlen & a & x & b & Hc & Hs & Hnames)%repeated_characters_names_insert.
  split; [done|]. split; [by exists a, x, b|]. split.
  - intros Hshort%Nat.ltb_lt. unfold omitted_chars. by rewrite Hshort.
  - intros Hvalid Hlong%Nat.ltb_ge Hadm l. unfold omitted_chars.
    rewrite Hlong.
    destruct (record_targets G s (omitted_chars_names s)) as [targets|] eqn:Hr;
      cbn [mbind result_bind]; [|done].
    unfold return_targets. cbn [orb]. intros [= <-].
    apply (record_targets_complete G s _ _ Hr); [|done].
    apply Hnames. rewrite Hc, string_forallb_app in Hvalid.
    apply andb_true_iff in Hvalid as [_ Hvalid]. cbn in Hvalid.
    by apply andb_true_iff in Hvalid as [? _].
Qed.

Lemma repeated_characters_names_inverse_witness :
  String.length "reeact" = S (String.length "react")
  ∧ (∃ a x b, "reeact" = a +:+ String x (String x b)
              ∧ "react" = a +:+ String x b)
  ∧ ((String.length "react" < 4)%nat →
     omitted_chars doubled_corpus "react" true = Ok [])
  ∧ (string_forallb is_name_char "reeact" = true →
     (4 ≤ String.length "react")%nat →
     admissible doubled_corpus "react" "reeact" →
     ∀ l, omitted_chars doubled_corpus "react" true = Ok l → "reeact" ∈ l).
Proof.
  apply (repeated_characters_names_inverse doubled_corpus). by_evaluation.
Defined.

(** Both insertions of [e] give [reeact]; a name of two characters gets
    nothing. *)
Example omitted_chars_doubled_corpus :
  omitted_chars doubled_corpus "react" true = Ok ["reeact"; "reeact"]
  ∧ admissible doubled_corpus "react" "reeact"
  ∧ omitted_chars doubled_corpus "ab" true = Ok [].
Proof.
  split; [vm_compute; reflexivity|]. split; [|reflexivity].
  split; [by_evaluation|]. split; [done | vm_compute; reflexivity].
Qed.

(** X19: swapping is its own inverse: a name [s] that [swapped_characters]
    tries for [c] has the length of [c], and [c] is one of the names that
    [swapped_characters] tries for [s]. *)
Theorem swapped_characters_names_involution (c s : string) :
  s ∈ swapped_characters_names c →
  String.length s = String.length c ∧ c ∈ swapped_characters_names s.
Proof.
  unfold swapped_characters_names.
  intros (i & Hi & Hs)%elem_of_flat_map.
  destruct (String.get i c) as [t|] eqn:Ht; [|by apply not_elem_of_nil in Hs].
  destruct (String.get (i + 1) c) as [u|] eqn:Hu;
    [|by apply not_elem_of_nil in Hs].
  apply list_elem_of_singleton in Hs as ->.
  destruct (get_split_pair _ _ _ _ Ht Hu) as (a & b & -> & <-).
  rewrite slice_to_append, slice_from_append_2. unfold char_str. simpl.
  split.
  { rewrite !length_append. simpl. lia. }
  apply elem_of_flat_map. exists (String.length a). split.
  { apply elem_of_indices. rewrite length_append. simpl. lia. }
  rewrite get_append, get_append_1, slice_to_append, slice_from_append_2.
  apply list_elem_of_here.
Qed.

Lemma swapped_characters_names_involution_witness :
  String.length "loadsh" = String.length "lodash"
  ∧ "lodash" ∈ swapped_characters_names "loadsh".
Proof. apply swapped_characters_names_involution. by_evaluation. Defined.

Lemma selections_Permutation {A} (l : list A) (x : A) (rest : list A) :
  (x, rest) ∈ selections l → l ≡ₚ x :: rest.
Proof.
  revert x rest. induction l as [|y ys IH]; intros x rest; cbn [selections].
  { by intros ?%not_elem_of_nil. }
  intros [[= -> ->] | ([z zs] & [= -> ->] & Hz)%list_elem_of_fmap]%elem_of_cons.
  - done.
  - cbn. rewrite (IH _ _ Hz). apply perm_swap.
Qed.

Lemma permutations_aux_submseteq {A} (n : nat) :
  ∀ (l p : list A), p ∈ permutations_aux n l → length p = n ∧ p ⊆+ l.
Proof.
  induction n as [|n IH]; intros l p; cbn [permutations_aux].
  { intros ->%list_elem_of_singleton. split; [done | apply submseteq_nil_l]. }
  intros ([x rest] & Hx & (q & -> & Hq)%list_elem_of_fmap)%elem_of_flat_map.
  cbn in Hq. destruct (IH _ _ Hq) as [Hlen Hsub].
  split; [cbn; by rewrite Hlen|].
  rewrite (selections_Permutation _ _ _ Hx). cbn. by apply submseteq_skip.
Qed.

Lemma permutations_Permutation {A} (l p : list A) :
  p ∈ permutations l → p ≡ₚ l.
Proof.
  intros [Hlen Hsub]%permutations_aux_submseteq.
  apply submseteq_length_Permutation; [done | lia].
Qed.

Lemma permutations_identity {A} (l : list A) : l ∈ permutations l.
Proof.
  unfold permutations. induction l as [|x xs IH]; [apply list_elem_of_here|].
  cbn [length permutations_aux selections flat_map].
  apply elem_of_app. left. cbn. apply list_elem_of_fmap. by exists xs.
Qed.

(** The names of the loop of [swapped_words]. *)
Lemma swapped_words_names_tokens (c : string) :
  (∀ s, s ∈ swapped_words_names c →
     ∃ p d, p ≡ₚ tokens_of c ∧ d ∈ DELIMITERS ∧ s = String.concat d p)
  ∧ (∀ d, d ∈ DELIMITERS →
       String.concat d (tokens_of c) ∈ swapped_words_names c).
Proof.
  unfold swapped_words_names. split.
  - intros s (p & Hp & (d & -> & Hd)%list_elem_of_fmap)%elem_of_flat_map.
    exists p, d. split; [by apply permutations_Permutation | done].
  - intros d Hd. apply elem_of_flat_map. exists (tokens_of c).
    split; [apply permutations_identity|].
    apply list_elem_of_fmap. by exists d.
Qed.

(** X20: for a candidate without delimiter or with more than 8 tokens
    [swapped_words] returns the empty list.  Otherwise every name it returns
    is admissible and is the tokens of the candidate in some order, joined
    by one of the three delimiters; and for each delimiter, the tokens in
    their own order joined by it are returned when this name is
    admissible. *)
Theorem swapped_words_names_permute (G : Globals) (c : string)
    (l : list string) :
  swapped_words G c true = Ok l →
  (string_existsb is_delimiter c = false
   ∨ (8 < length (tokens_of c))%nat → l = [])
  ∧ (∀ t, t ∈ l →
       string_existsb is_delimiter c = true
       ∧ (length (tokens_of c) ≤ 8)%nat
       ∧ admissible G c t
       ∧ ∃ p d, p ≡ₚ tokens_of c ∧ d ∈ DELIMITERS ∧ t = String.concat d p)
  ∧ (string_existsb is_delimiter c = true →
     (length (tokens_of c) ≤ 8)%nat →
     ∀ d, d ∈ DELIMITERS →
     admissible G c (String.concat d (tokens_of c)) →
     String.concat d (tokens_of c) ∈ l).
Proof.
  destruct (swapped_words_names_tokens c) as [Hsound Hown].
  unfold swapped_words.
  destruct (string_existsb is_delimiter c) eqn:Hdel; cbn [negb].
  2: { intros [= <-]. split; [done|]. split; [|done].
       intros t Ht. by apply not_elem_of_nil in Ht. }
  destruct (8 <? length (tokens_of c))%nat eqn:Hmany.
  { apply Nat.ltb_lt in Hmany. intros [= <-]. split; [done|]. split.
    - intros t Ht. by apply not_elem_of_nil in Ht.
    - intros _ ?. lia. }
  apply Nat.ltb_ge in Hmany. intros Hl. split; [|split].
  - intros [? | ?]; [done | lia].
  - intros t Ht.
    destruct (tested_targets_admissible G c _ _ _ Hl t Ht) as [Hgen Hadm].
    split; [done|]. split; [done|]. split; [done|]. by apply Hsound.
  - intros _ _ d Hd Hadm.
    destruct (record_targets G c (swapped_words_names c)) as [targets|] eqn:Hr;
      cbn [mbind result_bind] in Hl; [|done].
    unfold return_targets in Hl. cbn [orb] in Hl. injection Hl as <-.
    apply (record_targets_complete G c _ _ Hr); [by apply Hown | done].
Qed.

Lemma swapped_words_names_permute_witness :
  (string_existsb is_delimiter "stream-event" = false
   ∨ (8 < length (tokens_of "stream-event"))%nat → ["event-stream"] = [])
  ∧ (∀ t, t ∈ ["event-stream"] →
       string_existsb is_delimiter "stream-event" = true
       ∧ (length (tokens_of "stream-event") ≤ 8)%nat
       ∧ admissible words_corpus "stream-event" t
       ∧ ∃ p d, p ≡ₚ tokens_of "stream-event" ∧ d ∈ DELIMITERS
                ∧ t = String.concat d p)
  ∧ (string_existsb is_delimiter "stream-event" = true →
     (length (tokens_of "stream-event") ≤ 8)%nat →
     ∀ d, d ∈ DELIMITERS →
     admissible words_corpus "stream-event"
       (String.concat d (tokens_of "stream-event")) →
     String.concat d (tokens_of "stream-event") ∈ ["event-stream"]).
Proof.
  apply (swapped_words_names_permute words_corpus). vm_compute. reflexivity.
Defined.

(** A delimiter put for another one is found as well; a name without
    delimiter gets nothing. *)
Example swapped_words_words_corpus :
  swapped_words words_corpus "event_stream" true = Ok ["event-stream"]
  ∧ swapped_words words_corpus "eventstream" true = Ok [].
Proof. split; vm_compute; reflexivity. Qed.

(** ** Loading the corpus *)

Lemma rows_of_app (k : string) (rows1 rows2 : list Row) :
  rows_of k (rows1 ++ rows2) = rows_of k rows1 ++ rows_of k rows2.
Proof. apply List.filter_app. Qed.

Lemma rows_of_single_eq (r : Row) : rows_of (row_name r) [r] = [r].
Proof. unfold rows_of. cbn. by rewrite String.eqb_refl. Qed.

Lemma rows_of_single_ne (k : string) (r : Row) :
  row_name r ≠ k → rows_of k [r] = [].
Proof. intros Hne%String.eqb_neq. unfold rows_of. cbn. by rewrite Hne. Qed.

Lemma rows_of_none (k : string) (rows : list Row) :
  (∀ r, r ∈ rows → row_name r ≠ k) → rows_of k rows = [].
Proof.
  induction rows as [|r rows IH]; intros Hrows; [done|].
  change (r :: rows) with ([r] ++ rows). rewrite rows_of_app.
  rewrite rows_of_single_ne by apply Hrows, list_elem_of_here.
  apply IH. intros r' ?. by apply Hrows, list_elem_of_further.
Qed.

Lemma elem_of_dom_insert (m : gmap string Package) (k k0 : string)
    (c : Package) :
  k ∈ dom (<[k0 := c]> m) ↔ k = k0 ∨ k ∈ dom m.
Proof. by rewrite dom_insert_L, elem_of_union, elem_of_singleton. Qed.

Lemma built_from_empty : built_from {| dict_keys := []; dict_items := ∅ |} [].
Proof.
  unfold built_from. cbn. split; [constructor|]. split; [|split].
  - intros k. rewrite dom_empty_L. split; [by intros ?%not_elem_of_nil|].
    by intros ?%not_elem_of_empty.
  - intros k. rewrite dom_empty_L. split; [by intros ?%not_elem_of_empty|].
    by intros (r & ?%not_elem_of_nil & _).
  - intros k c. by rewrite lookup_empty.
Qed.

Lemma add_row_built (d : CrateDict) (rows : list Row) (r : Row) :
  built_from d rows → built_from (add_row d r) (rows ++ [r]).
Proof.
  intros (Hnodup & Hkeys & Hdom & Hitems). unfold add_row.
  assert (∀ k, (∃ r', r' ∈ rows ++ [r] ∧ row_name r' = k)
               ↔ k = row_name r ∨ k ∈ dom (dict_items d)) as Hrows.
  { intros k. rewrite Hdom. split.
    - intros (r' & [? | ->%list_elem_of_singleton]%elem_of_app & Hk);
        [right; by exists r' | by left].
    - intros [-> | (r' & ? & ?)].
      + exists r. split; [|done]. apply elem_of_app. right.
        apply list_elem_of_here.
      + exists r'. split; [|done]. apply elem_of_app. by left. }
  assert (∀ k, k ≠ row_name r →
               rows_of k (rows ++ [r]) = rows_of k rows) as Hother.
  { intros k Hne. rewrite rows_of_app, rows_of_single_ne by done.
    apply app_nil_r. }
  destruct (dict_items d !! row_name r) as [c|] eqn:Hc;
    unfold built_from; cbn [dict_keys dict_items].
  - assert (row_name r ∈ dom (dict_items d)) as Hin
      by (apply elem_of_dom; eauto).
    split; [done|]. split; [|split].
    + intros k. rewrite Hkeys, elem_of_dom_insert.
      split; [by right | by intros [-> | ?]].
    + intros k. by rewrite Hrows, elem_of_dom_insert.
    + intros k c'. destruct (decide (k = row_name r)) as [-> | Hne].
      * rewrite lookup_insert_eq. intros [= <-]. cbn.
        destruct (Hitems _ _ Hc) as (Hname & Hauthors & r1 & rest & Hr1 & ?).
        rewrite rows_of_app, rows_of_single_eq, map_app, Hauthors, Hr1.
        split; [done|]. split; [done|]. by exists r1, (rest ++ [r]).
      * rewrite lookup_insert_ne by done. rewrite Hother by done.
        apply Hitems.
  - assert (row_name r ∉ dom (dict_items d)) as Hnotin
      by (by apply not_elem_of_dom).
    split; [|split; [|split]].
    + apply NoDup_app. split; [done|]. split; [|apply NoDup_singleton].
      intros k Hk ->%list_elem_of_singleton. by apply Hkeys in Hk.
    + intros k. rewrite elem_of_app, list_elem_of_singleton, Hkeys,
        elem_of_dom_insert. tauto.
    + intros k. by rewrite Hrows, elem_of_dom_insert.
    + intros k c'. destruct (decide (k = row_name r)) as [-> | Hne].
      * rewrite lookup_insert_eq. intros [= <-]. cbn.
        rewrite rows_of_app, rows_of_single_eq, rows_of_none.
        2: { intros r' Hr' Heq. apply Hnotin, Hdom. by exists r'. }
        split; [done|]. split; [done|]. by exists r, [].
      * rewrite lookup_insert_ne by done. rewrite Hother by done.
        apply Hitems.
Qed.

Lemma foldl_add_row_built (rows : list Row) :
  ∀ d rows0, built_from d rows0 →
  built_from (foldl add_row d rows) (rows0 ++ rows).
Proof.
  induction rows as [|r rows IH]; intros d rows0 Hd; cbn [foldl].
  { by rewrite app_nil_r. }
  replace (rows0 ++ r :: rows) with ((rows0 ++ [r]) ++ rows)
    by (by rewrite <- app_assoc).
  by apply IH, add_row_built.
Qed.

Lemma foldl_add_row_items (rows : list Row) :
  ∀ d, dom (dict_items d) ⊆ dom (dict_items (foldl add_row d rows)).
Proof.
  induction rows as [|r rows IH]; intros d; cbn [foldl]; [done|].
  etrans; [|apply IH]. unfold add_row.
  destruct (dict_items d !! row_name r); cbn; intros k Hk;
    apply elem_of_dom_insert; by right.
Qed.

(** The set that the first loop leaves is the set of the names of the top
    rows. *)
Lemma top_rows_keys (top : list Row) :
  list_to_set
    (dict_keys (foldl add_row {| dict_keys := []; dict_items := ∅ |} top))
  = (list_to_set (map row_name top) : gset string).
Proof.
  destruct (foldl_add_row_built top _ [] built_from_empty)
    as (_ & Hkeys & Hdom & _).
  apply set_eq. intros k.
  rewrite !elem_of_list_to_set, Hkeys, Hdom, list_elem_of_fmap. cbn.
  split; intros (r & ? & ?); by exists r.
Qed.

(** X21: the globals that [populate_crate_lists] leaves: the popular set
    has [most_popular] names, the names of the top rows, and each is a key
    of [crates]; the keys of [crates] are the names of all the rows; a crate
    has its name and the logins of its rows, top rows first, as its authors,
    so never an empty list; [popular_package_list], a view of the keys,
    lists every key once, popular or not; and the index is the one of the
    popular set. *)
Theorem populate_crate_lists_globals (a : Args) (top other : list Row)
    (G : Globals) :
  populate_crate_lists a top other = Populated G →
  popular_in_crates G
  ∧ Z.of_nat (size (popular_package_set G)) = most_popular a
  ∧ (∀ k, k ∈ popular_package_set G ↔ ∃ r, r ∈ top ∧ row_name r = k)
  ∧ (∀ k, k ∈ dom (crates G) ↔ ∃ r, r ∈ top ++ other ∧ row_name r = k)
  ∧ (∀ k c, crates G !! k = Some c →
       name c = k
       ∧ authors c = map row_login (rows_of k (top ++ other))
       ∧ authors c ≠ [])
  ∧ NoDup (popular_package_list G)
  ∧ (∀ k, k ∈ popular_package_list G ↔ k ∈ dom (crates G))
  ∧ popular_bitflips G = generate_bitflips (popular_package_set G)
  ∧ args G = a.
Proof.
  unfold populate_crate_lists.
  set (crates1 := foldl add_row {| dict_keys := []; dict_items := ∅ |} top).
  destruct (Z.of_nat (size (list_to_set (dict_keys crates1) : gset string))
            =? most_popular a) eqn:Hsize; cbn [negb]; [|done].
  intros [= <-]. cbn. apply Z.eqb_eq in Hsize.
  pose proof (foldl_add_row_built top _ [] built_from_empty)
    as (_ & Hkeys1 & Hdom1 & _). fold crates1 in Hkeys1, Hdom1.
  pose proof (foldl_add_row_built other crates1 top) as Hbuilt.
  destruct Hbuilt as (Hnodup & Hkeys & Hdom & Hitems).
  { apply (foldl_add_row_built top _ [] built_from_empty). }
  split; [|split; [done|split; [|split; [done|split; [|done]]]]].
  - unfold popular_in_crates. cbn. intros k Hk.
    apply elem_of_list_to_set, Hkeys1 in Hk.
    by apply (foldl_add_row_items other crates1).
  - intros k. rewrite elem_of_list_to_set, Hkeys1, Hdom1. done.
  - intros k c Hc. destruct (Hitems k c Hc) as (? & Hauthors & r & rest & Hr & _).
    split; [done|]. split; [done|]. by rewrite Hauthors, Hr.
Qed.

Lemma populate_crate_lists_globals_witness :
  popular_in_crates example_populated
  ∧ Z.of_nat (size (popular_package_set example_populated))
    = most_popular (example_args 1)
  ∧ (∀ k, k ∈ popular_package_set example_populated ↔
          ∃ r, r ∈ example_top_rows ∧ row_name r = k)
  ∧ (∀ k, k ∈ dom (crates example_populated) ↔
          ∃ r, r ∈ example_top_rows ++ example_other_rows ∧ row_name r = k)
  ∧ (∀ k c, crates example_populated !! k = Some c →
       name c = k
       ∧ authors c
         = map row_login (rows_of k (example_top_rows ++ example_other_rows))
       ∧ authors c ≠ [])
  ∧ NoDup (popular_package_list example_populated)
  ∧ (∀ k, k ∈ popular_package_list example_populated ↔
          k ∈ dom (crates example_populated))
  ∧ popular_bitflips example_populated
    = generate_bitflips (popular_package_set example_populated)
  ∧ args example_populated = example_args 1.
Proof.
  apply (populate_crate_lists_globals (example_args 1) example_top_rows
           example_other_rows).
  vm_compute. reflexivity.
Defined.

(** The crate [react] of the example has the logins of its three rows, and
    [popular_package_list] also lists [reeact], which is not popular. *)
Example example_populated_react :
  authors <$> crates example_populated !! "react"
  = Some [Some "A"; Some "B"; Some "A"]
  ∧ popular_package_list example_populated = ["react"; "reeact"]
  ∧ elements (popular_package_set example_populated) = ["react"].
Proof. repeat split; vm_compute; reflexivity. Qed.

(** X22: [populate_crate_lists] ends the process, with the status 1, exactly
    when the number of distinct names among the top rows is not
    [most_popular]; the other rows play no part. *)
Theorem populate_crate_lists_exit (a : Args) (top other : list Row) :
  (populate_crate_lists a top other = SystemExit 1 ↔
   Z.of_nat (size (list_to_set (map row_name top) : gset string))
   ≠ most_popular a)
  ∧ (∀ status, populate_crate_lists a top other = SystemExit status →
               status = 1).
Proof.
  unfold populate_crate_lists. rewrite top_rows_keys.
  destruct (Z.of_nat (size (list_to_set (map row_name top) : gset string))
            =? most_popular a) eqn:Hsize; cbn [negb].
  - apply Z.eqb_eq in Hsize. split; [split; [done|] | done].
    intros Hne. by destruct Hne.
  - apply Z.eqb_neq in Hsize. split; [done|]. by intros status [= <-].
Qed.

(** ** The exceptions of the detector *)

Section DetectorExceptions.
Context `{External}.
Variable G : Globals.
Hypothesis Hpopular : popular_in_crates G.

Lemma record_targets_total (c : string) (generated : list string) :
  c ∈ dom (crates G) → ∃ l, record_targets G c generated = Ok l.
Proof.
  intros Hc. induction generated as [|s rest [l IH]]; cbn [record_targets];
    [by eexists|].
  destruct (is_target_total G c s Hpopular Hc) as [b ->].
  cbn [mbind result_bind]. rewrite IH. cbn [mbind result_bind]. by eexists.
Qed.

Lemma tested_targets_total (c : string) (generated : list string) :
  c ∈ dom (crates G) →
  ∃ l, (targets ← record_targets G c generated;
        return_targets G true targets) = Ok l.
Proof.
  intros Hc. destruct (record_targets_total c generated Hc) as [l ->].
  cbn [mbind result_bind]. unfold return_targets. cbn [orb]. by eexists.
Qed.

Lemma raw_targets_total (c : string) :
  c ∈ dom (crates G) → ∃ l, raw_targets G c = Ok l.
Proof.
  intros Hc. unfold raw_targets.
  destruct (tested_targets_total c (repeated_characters_names c) Hc)
    as [t1 H1].
  destruct (tested_targets_total c (omitted_chars_names c) Hc) as [t2 H2].
  destruct (tested_targets_total c (swapped_characters_names c) Hc)
    as [t3 H3].
  destruct (tested_targets_total c (swapped_words_names c) Hc) as [t4 H4].
  destruct (tested_targets_total c (common_typos_names c) Hc) as [t5 H5].
  assert (∃ t6, version_numbers G c = Ok t6) as [t6 H6].
  { unfold version_numbers.
    destruct (VERSION_NUMBER_REGEX_match c) as [s|]; [|by eexists].
    destruct (is_target_total G c s Hpopular Hc) as [b ->].
    cbn [mbind result_bind]. destruct b; by eexists. }
  unfold repeated_characters. rewrite H1. cbn [mbind result_bind].
  assert (∃ t2', omitted_chars G c true = Ok t2') as [t2' ->].
  { unfold omitted_chars. destruct (_ <? _)%nat; by eexists. }
  cbn [mbind result_bind].
  unfold swapped_characters. rewrite H3. cbn [mbind result_bind].
  assert (∃ t4', swapped_words G c true = Ok t4') as [t4' ->].
  { unfold swapped_words. destruct (negb _); [by eexists|].
    destruct (_ <? _)%nat; by eexists. }
  cbn [mbind result_bind].
  unfold common_typos. rewrite H5. cbn [mbind result_bind].
  rewrite H6. cbn [mbind result_bind].
  unfold bitflips. destruct (popular_bitflips G !! c); by eexists.
Qed.

Lemma levenshtein_targets_Raise_in_crates (descr : string) (l : list string) :
  ∀ targets e, Forall (λ t, t ∈ dom (crates G)) l →
  levenshtein_targets G descr targets l = Raise e →
  ∃ a b, Levenshtein_distance a b = Raise e.
Proof.
  induction l as [|t0 rest IH]; intros targets e Hl; [done|].
  apply Forall_cons in Hl as [(ct & _ & Hct)%crates_get_Ok Hrest].
  cbn [levenshtein_targets]. rewrite Hct. cbn [mbind result_bind].
  destruct (Levenshtein_distance descr (description ct)) as [dist|e'] eqn:E;
    cbn [mbind result_bind].
  - destruct (dist <? _); by apply IH.
  - intros [= <-]. eauto.
Qed.

Lemma raw_targets_popular (c : string) (raw : list string) :
  popular_bitflips G = generate_bitflips (popular_package_set G) →
  raw_targets G c = Ok raw →
  Forall (λ t, t ∈ popular_package_set G) (list_set raw).
Proof.
  intros Hindex Hraw. apply Forall_forall. intros t Ht.
  unfold list_set in Ht. apply elem_of_elements, elem_of_list_to_set in Ht.
  destruct (raw_targets_origin G _ _ Hraw t Ht)
    as [(? & _) | (l & Hl & Htl)]; [done|].
  rewrite Hindex in Hl.
  apply generate_bitflips_lookup in Hl as (_ & _ & Hl).
  by apply Hl in Htl as [? _].
Qed.

(** X23: on a corpus where the popular names are keys of [crates] and the
    index is the one of the popular set, the detector raises no [KeyError]
    for a crate of the corpus: its only exceptions are the [ValueError] of
    the semantic branch, about a popular crate with a text that the model
    gives the zero vector, and the exceptions of [Levenshtein.distance]. *)
Theorem detector_exceptions (c : string) (e : exn) :
  popular_bitflips G = generate_bitflips (popular_package_set G) →
  c ∈ dom (crates G) →
  get_typosquatting_targets G c = Raise e →
  (∃ t d descr, e = ValueError t d ∧ semantic_mode G c descr
                ∧ t ∈ popular_package_set G ∧ text_of G t = Some d
                ∧ float_is_zero (vector_norm (nlp d)) = true)
  ∨ (∃ a b, Levenshtein_distance a b = Raise e).
Proof.
  intros Hindex Hc. unfold get_typosquatting_targets.
  case_bool_decide; [done|].
  assert (∃ b, allowlisted G c = Ok b) as [b ->].
  { unfold allowlisted. destruct (crates_get_Ok G c Hc) as (cp & _ & ->).
    cbn [mbind result_bind]. repeat (destruct (_ && _)); by eexists. }
  cbn [mbind result_bind]. destruct b; [done|].
  destruct (raw_targets_total c Hc) as [raw Hraw]. rewrite Hraw.
  cbn [mbind result_bind].
  pose proof (raw_targets_popular c raw Hindex Hraw) as Hraw_popular.
  assert (Forall (λ t, t ∈ dom (crates G)) (list_set raw)) as Hin
    by (eapply Forall_impl; [done | intros t; apply Hpopular]).
  destruct (filter_targets G c (list_set raw)) as [d|e'] eqn:Hfilter;
    cbn [mbind result_bind]; [done|].
  intros [= ->]. revert Hfilter. unfold filter_targets.
  destruct (crates_get_Ok G c Hc) as (cp & Hcp & ->). cbn [mbind result_bind].
  assert (blank_targets G ∅ (list_set raw) ≠ Raise e) as Hblank.
  { destruct (blank_targets_lookup G (list_set raw) ∅ Hin) as (m & -> & _).
    done. }
  destruct (description cp) as [descr|] eqn:Hdescr; [|done].
  destruct (String.eqb (strip descr) "") eqn:Hstrip; [done|].
  destruct (float_is_zero (vector_norm (nlp descr))) eqn:Hnorm.
  { intros ?%levenshtein_targets_Raise_in_crates; [by right | done]. }
  intros Hsem. left.
  destruct (existsb (zero_norm_target G) (list_set raw)) eqn:Hz.
  - destruct (semantic_targets_Raise G (nlp descr) (list_set raw) ∅ Hin Hz)
      as (t & d & Ht & Htin & Htext & Hzero).
    exists t, d, descr. rewrite Hsem in Ht. injection Ht as ->.
    split; [done|]. split.
    { split; [|done]. apply text_of_Some. by exists cp. }
    rewrite Forall_forall in Hraw_popular. auto.
  - destruct (semantic_targets_Ok G (nlp descr) (list_set raw) ∅ Hin Hz)
      as [m Hm].
    congruence.
Qed.

End DetectorExceptions.

Lemma detector_exceptions_witness :
  (∃ t d descr,
     ValueError "tokio" unknown_text = ValueError t d
     ∧ @semantic_mode similar_external zero_norm_corpus "tokoi" descr
     ∧ t ∈ popular_package_set zero_norm_corpus
     ∧ text_of zero_norm_corpus t = Some d
     ∧ float_is_zero (@vector_norm similar_external d) = true)
  ∨ (∃ a b, @Levenshtein_distance similar_external a b
            = Raise (ValueError "tokio" unknown_text)).
Proof.
  apply (@detector_exceptions similar_external zero_norm_corpus).
  - by_evaluation.
  - reflexivity.
  - by_evaluation.
  - vm_compute. reflexivity.
Defined.
